(** * Plex Transfer Manager: the transfer orchestration core

    Shallow embedding of
    - [TransferManager.buildDestPath] (src/backend/src/services/transfer-manager.js),
    - the queue / admission / execution / cancellation state machine of
      [TransferManager] (same file),
    - the rsync progress parser of [SSHManager.startRsyncTransfer]
      (src/backend/src/services/ssh-manager.js),
    - the [POST /api/transfers] handler (src/backend/src/routes/transfers.js). *)

From Stdlib Require Import String Ascii List Arith ZArith Lia Bool.
From Stdlib Require Import Permutation Sorted.
From Stdlib Require DecimalString DecimalNat.
Import ListNotations.
Local Open Scope string_scope.

(* ------------------------------------------------------------------ *)
(** ** JavaScript values used by the code *)

Module Js.

(** A property that is either [undefined] or a string. *)
Definition jsstr := option string.

(** JS truthiness of such a property: [undefined] and [""] are falsy. *)
Definition truthy (v : jsstr) : bool :=
  match v with
  | Some s => negb (String.eqb s "")
  | None => false
  end.

(** [a || b] *)
Definition js_or (a b : jsstr) : jsstr := if truthy a then a else b.

(** The value as a template literal prints it. *)
Definition render (v : jsstr) : string :=
  match v with
  | Some s => s
  | None => "undefined"
  end.

Definition slash : ascii := "/"%char.

End Js.

Import Js.

(* ------------------------------------------------------------------ *)
(** ** Path mapper: [buildDestPath] *)

Module PathMapper.

(** [server.mediaPaths]: [{ movies, tv, root }], each possibly undefined. *)
Record mediaPaths := MediaPaths {
  movies : jsstr;
  tv : jsstr;
  root : jsstr
}.

(** The values ['movies'], ['tv'], ['root'] of the local [mediaType]. *)
Inductive mediaType := MTmovies | MTtv | MTroot.

Definition mediaType_eqb (a b : mediaType) : bool :=
  match a, b with
  | MTmovies, MTmovies | MTtv, MTtv | MTroot, MTroot => true
  | _, _ => false
  end.

(** [s.replace(pat, rep)] with a string pattern: the first occurrence only. *)
Definition replace_first (pat rep s : string) : string :=
  match String.index 0 pat s with
  | Some n =>
      String.append (substring 0 n s)
        (String.append rep
           (substring (n + String.length pat)
              (String.length s - (n + String.length pat)) s))
  | None => s
  end.

(** [s.replace(/^\/+/, '')] *)
Fixpoint strip_leading_slashes (s : string) : string :=
  match s with
  | String c s' => if Ascii.eqb c slash then strip_leading_slashes s' else s
  | EmptyString => s
  end.

(** [s.split('/')] *)
Fixpoint split_slash (s : string) : list string :=
  match s with
  | EmptyString => [""%string]
  | String c s' =>
      let r := split_slash s' in
      if Ascii.eqb c slash then ""%string :: r
      else match r with
           | h :: t => String c h :: t
           | [] => [String c ""]
           end
  end.

(** [s.replace(/\/+/g, '/')]: every maximal run of slashes becomes one. *)
Fixpoint collapse_go (prev_slash : bool) (s : string) : string :=
  match s with
  | EmptyString => EmptyString
  | String c s' =>
      if Ascii.eqb c slash then
        if prev_slash then collapse_go true s' else String c (collapse_go true s')
      else String c (collapse_go false s')
  end.

Definition collapse_slashes (s : string) : string := collapse_go false s.

(** [base && sourcePath.startsWith(base)] *)
Definition in_category (base : jsstr) (sourcePath : string) : bool :=
  truthy base && String.prefix (render base) sourcePath.

(** Lines 88-112 of [buildDestPath]: [relativePath] and [mediaType]. *)
Definition source_match (sourcePath : string) (src : mediaPaths)
    : string * mediaType :=
  if in_category (movies src) sourcePath then
    (strip_leading_slashes (replace_first (render (movies src)) "" sourcePath), MTmovies)
  else if in_category (tv src) sourcePath then
    (strip_leading_slashes (replace_first (render (tv src)) "" sourcePath), MTtv)
  else if in_category (root src) sourcePath then
    (strip_leading_slashes (replace_first (render (root src)) "" sourcePath), MTroot)
  else
    let parts := split_slash sourcePath in
    (List.last parts ""%string, MTroot).

(** Lines 114-122 of [buildDestPath]: [destBasePath]. *)
Definition dest_base_path (mt : mediaType) (dst : mediaPaths) : jsstr :=
  if mediaType_eqb mt MTmovies && truthy (movies dst) then movies dst
  else if mediaType_eqb mt MTtv && truthy (tv dst) then tv dst
  else js_or (js_or (root dst) (movies dst)) (tv dst).

(** [buildDestPath(sourcePath, sourceMediaPaths, destMediaPaths)] *)
Definition buildDestPath (sourcePath : string) (src dst : mediaPaths) : string :=
  let '(relativePath, mt) := source_match sourcePath src in
  collapse_slashes
    (String.append (render (dest_base_path mt dst)) (String.append "/" relativePath)).

(** The category tables of the spec's worked example. *)
Definition ex_src : mediaPaths :=
  MediaPaths (Some "/a/movies") (Some "/a/tv") (Some "/a").
Definition ex_dst : mediaPaths :=
  MediaPaths (Some "/b/Movies") (Some "/b/TV") (Some "/b").

End PathMapper.

(* ------------------------------------------------------------------ *)
(** ** The orchestrator: [class TransferManager] *)

Module Orchestrator.
Import PathMapper.

(** [transfer.status]: queued, active, completed, failed, cancelled, skipped. *)
Inductive transferStatus := Queued | Active | Completed | Failed | Cancelled | Skipped.

Definition status_eqb (a b : transferStatus) : bool :=
  match a, b with
  | Queued, Queued | Active, Active | Completed, Completed
  | Failed, Failed | Cancelled, Cancelled | Skipped, Skipped => true
  | _, _ => false
  end.

(** A JS number as it occurs here: an integer or [NaN]. *)
Inductive num := Fin (z : Z) | NaN.

(** [a !== b] on such numbers ([NaN !== NaN]). *)
Definition num_neq (a b : num) : bool :=
  match a, b with
  | Fin x, Fin y => negb (Z.eqb x y)
  | _, _ => true
  end.

(** [transfer.progress] and the progress object passed to the callback. *)
Record progressInfo := ProgressInfo {
  percentage : num;
  transferred : num;
  speed : jsstr;
  eta : jsstr
}.

(** A server descriptor from the configuration (the fields the core reads). *)
Record server := Server {
  server_id : string;
  server_mediaPaths : mediaPaths
}.

(** An element of the submitted [files] array: [{ path, name, size }]. *)
Record file := File {
  file_path : string;
  file_name : string;
  file_size : nat
}.

(** A transfer record. Ids are [uuidv4()]s, modelled by a fresh counter. *)
Record transfer := Transfer {
  id : nat;
  sourceServerId : string;
  destServerId : string;
  sourcePath : string;
  destPath : string;
  filename : string;
  size : nat;
  status : transferStatus;
  progress : progressInfo;
  error : jsstr;
  createdAt : nat;
  startedAt : option nat;
  completedAt : option nat
}.

Definition with_status (st : transferStatus) (t : transfer) : transfer :=
  Transfer (id t) (sourceServerId t) (destServerId t) (sourcePath t) (destPath t)
    (filename t) (size t) st (progress t) (error t) (createdAt t)
    (startedAt t) (completedAt t).

Definition with_progress (p : progressInfo) (t : transfer) : transfer :=
  Transfer (id t) (sourceServerId t) (destServerId t) (sourcePath t) (destPath t)
    (filename t) (size t) (status t) p (error t) (createdAt t)
    (startedAt t) (completedAt t).

Definition with_error (e : jsstr) (t : transfer) : transfer :=
  Transfer (id t) (sourceServerId t) (destServerId t) (sourcePath t) (destPath t)
    (filename t) (size t) (status t) (progress t) e (createdAt t)
    (startedAt t) (completedAt t).

Definition with_startedAt (n : nat) (t : transfer) : transfer :=
  Transfer (id t) (sourceServerId t) (destServerId t) (sourcePath t) (destPath t)
    (filename t) (size t) (status t) (progress t) (error t) (createdAt t)
    (Some n) (completedAt t).

Definition with_completedAt (n : nat) (t : transfer) : transfer :=
  Transfer (id t) (sourceServerId t) (destServerId t) (sourcePath t) (destPath t)
    (filename t) (size t) (status t) (progress t) (error t) (createdAt t)
    (startedAt t) (Some n).

(** [transfer.progress.percentage = 100] *)
Definition with_percentage_100 (t : transfer) : transfer :=
  let p := progress t in
  with_progress (ProgressInfo (Fin 100) (transferred p) (speed p) (eta p)) t.

(** [this.transfers]: a [Map] from ids to records, in insertion order. *)
Definition tmap := list (nat * transfer).

Fixpoint map_get (k : nat) (m : tmap) : option transfer :=
  match m with
  | [] => None
  | (k', v) :: m' => if Nat.eqb k k' then Some v else map_get k m'
  end.

(** [Map.prototype.set]: replaces in place, or appends a new key. *)
Fixpoint map_set (k : nat) (v : transfer) (m : tmap) : tmap :=
  match m with
  | [] => [(k, v)]
  | (k', v') :: m' => if Nat.eqb k k' then (k, v) :: m' else (k', v') :: map_set k v m'
  end.

Definition map_delete (k : nat) (m : tmap) : tmap :=
  filter (fun kv => negb (Nat.eqb (fst kv) k)) m.

(** Mutating the object [this.transfers.get(k)] in place. *)
Definition map_update (k : nat) (f : transfer -> transfer) (m : tmap) : tmap :=
  match map_get k m with
  | Some t => map_set k (f t) m
  | None => m
  end.

(** [Set.prototype.add] / [Set.prototype.delete] on [this.activeTransfers]. *)
Definition set_add (k : nat) (l : list nat) : list nat :=
  if existsb (Nat.eqb k) l then l else app l [k].

Definition set_delete (k : nat) (l : list nat) : list nat :=
  filter (fun x => negb (Nat.eqb x k)) l.

(** [queue.splice(queue.indexOf(k), 1)] when [k] occurs. *)
Fixpoint remove_first (k : nat) (l : list nat) : list nat :=
  match l with
  | [] => []
  | x :: l' => if Nat.eqb x k then l' else x :: remove_first k l'
  end.

(** An rsync execution launched by [startTransfer] and not yet settled:
    [sshManager.startRsyncTransfer(sourceServer, destServer,
    transfer.sourcePath, transfer.destPath, progressCallback)]. *)
Record launch := Launch {
  l_id : nat;
  l_source : server;
  l_dest : server;
  l_sourcePath : string;
  l_destPath : string
}.

(** The manager's fields, plus the pending [startTransfer] continuations
    ([running]) and the source of fresh ids ([next_id]). *)
Record TM := MkTM {
  transfers : tmap;
  queue : list nat;
  activeTransfers : list nat;
  maxConcurrent : nat;
  next_id : nat;
  running : list launch
}.

Definition with_transfers (m : tmap) (s : TM) : TM :=
  MkTM m (queue s) (activeTransfers s) (maxConcurrent s) (next_id s) (running s).
Definition with_queue (q : list nat) (s : TM) : TM :=
  MkTM (transfers s) q (activeTransfers s) (maxConcurrent s) (next_id s) (running s).
Definition with_active (a : list nat) (s : TM) : TM :=
  MkTM (transfers s) (queue s) a (maxConcurrent s) (next_id s) (running s).
Definition with_running (r : list launch) (s : TM) : TM :=
  MkTM (transfers s) (queue s) (activeTransfers s) (maxConcurrent s) (next_id s) r.

(** [constructor()] *)
Definition init : TM := MkTM [] [] [] 3 0 [].

(** [setMaxConcurrent(max)] *)
Definition setMaxConcurrent (m : nat) (s : TM) : TM :=
  MkTM (transfers s) (queue s) (activeTransfers s) m (next_id s) (running s).

(** [getTransfer(transferId)] *)
Definition getTransfer (tid : nat) (s : TM) : option transfer :=
  map_get tid (transfers s).

(** The synchronous part of [startTransfer(transferId, sourceServer,
    destServer)], up to [await sshManager.startRsyncTransfer(...)]: the record
    becomes [active], [startedAt] is stamped, and the rsync execution is
    launched with the servers passed in. *)
Definition startTransfer (tid : nat) (src dst : server) (now : nat) (s : TM) : TM :=
  match map_get tid (transfers s) with
  | None => s
  | Some t =>
      let t' := with_startedAt now (with_status Active t) in
      let s1 := with_transfers (map_set tid t' (transfers s)) s in
      with_running
        (app (running s1) [Launch tid src dst (sourcePath t') (destPath t')]) s1
  end.

(** The [while] loop of [processQueue(sourceServer, destServer)]. Each
    iteration shifts the queue, so [length queue] iterations suffice. *)
Fixpoint processQueue_loop (fuel : nat) (src dst : server) (now : nat) (s : TM)
    : TM :=
  match fuel with
  | 0 => s
  | S fuel' =>
      match queue s with
      | [] => s
      | tid :: q' =>
          if Nat.ltb (length (activeTransfers s)) (maxConcurrent s) then
            let s1 := with_queue q' s in
            match map_get tid (transfers s1) with
            | Some t =>
                if status_eqb (status t) Queued then
                  let s2 := with_active (set_add tid (activeTransfers s1)) s1 in
                  processQueue_loop fuel' src dst now (startTransfer tid src dst now s2)
                else processQueue_loop fuel' src dst now s1
            | None => processQueue_loop fuel' src dst now s1
            end
          else s
      end
  end.

Definition processQueue (src dst : server) (now : nat) (s : TM) : TM :=
  processQueue_loop (length (queue s)) src dst now s.

(** The record built for one file by [createTransfers]. *)
Definition new_transfer (tid : nat) (src dst : server) (f : file) (now : nat)
    : transfer :=
  Transfer tid (server_id src) (server_id dst) (file_path f)
    (buildDestPath (file_path f) (server_mediaPaths src) (server_mediaPaths dst))
    (file_name f) (file_size f) Queued
    (ProgressInfo (Fin 0) (Fin 0) None None) None now None None.

(** The [for (const file of files)] loop of [createTransfers]. *)
Fixpoint create_loop (src dst : server) (now : nat) (files : list file)
    (s : TM) (transferIds : list nat) : TM * list nat :=
  match files with
  | [] => (s, transferIds)
  | f :: fs =>
      let tid := next_id s in
      let t := new_transfer tid src dst f now in
      let s' := MkTM (map_set tid t (transfers s)) (app (queue s) [tid])
                  (activeTransfers s) (maxConcurrent s) (S tid) (running s) in
      create_loop src dst now fs s' (app transferIds [tid])
  end.

(** [createTransfers(sourceServer, destServer, files)]: the body runs to its
    end synchronously (it has no [await]); [processQueue] is called without
    being awaited and itself runs synchronously up to the first [await] of
    each [startTransfer]. Returns the state after the call and the ids. *)
Definition createTransfers (src dst : server) (files : list file) (now : nat)
    (s : TM) : TM * list nat :=
  let '(s1, transferIds) := create_loop src dst now files s [] in
  (processQueue src dst now s1, transferIds).

(** How the awaited [startRsyncTransfer] settles. *)
Inductive outcome := Success | Failure (msg : string).

Fixpoint remove_nth {A} (n : nat) (l : list A) : list A :=
  match n, l with
  | _, [] => []
  | 0, _ :: l' => l'
  | S n', x :: l' => x :: remove_nth n' l'
  end.

(** The rest of [startTransfer] once the [n]-th pending rsync settles: the
    [try] / [catch] updates of the captured [transfer] object, then the
    [finally] block. *)
Definition finishTransfer (n : nat) (o : outcome) (now : nat) (s : TM) : TM :=
  match nth_error (running s) n with
  | None => s
  | Some l =>
      let s1 := with_running (remove_nth n (running s)) s in
      let upd := match o with
                 | Success => fun t =>
                     with_percentage_100 (with_completedAt now (with_status Completed t))
                 | Failure msg => fun t =>
                     with_completedAt now (with_error (Some msg) (with_status Failed t))
                 end in
      let s2 := with_transfers (map_update (l_id l) upd (transfers s1)) s1 in
      let s3 := with_active (set_delete (l_id l) (activeTransfers s2)) s2 in
      processQueue (l_source l) (l_dest l) now s3
  end.

(** [progressCallback(progress)] of the [n]-th pending rsync. *)
Definition progressCallback (n : nat) (p : progressInfo) (s : TM) : TM :=
  match nth_error (running s) n with
  | None => s
  | Some l =>
      with_transfers
        (map_update (l_id l)
           (with_progress (ProgressInfo (percentage p) (transferred p) (speed p) (eta p)))
           (transfers s)) s
  end.

(** [cancelTransfer(transferId, sourceServer)]: [None] when it throws
    ['Transfer not found'], otherwise the boolean it resolves to. *)
Definition cancelTransfer (tid : nat) (now : nat) (s : TM) : option bool * TM :=
  match map_get tid (transfers s) with
  | None => (None, s)
  | Some t =>
      if status_eqb (status t) Queued then
        let s1 := with_queue (remove_first tid (queue s)) s in
        (Some true,
         with_transfers
           (map_set tid (with_completedAt now (with_status Cancelled t)) (transfers s1)) s1)
      else if status_eqb (status t) Active then
        let s1 := with_transfers
                    (map_set tid (with_completedAt now (with_status Cancelled t)) (transfers s)) s in
        (Some true, with_active (set_delete tid (activeTransfers s1)) s1)
      else (Some false, s)
  end.

(** [clearOldTransfers(maxAge)] at time [now]. *)
Definition is_terminal (st : transferStatus) : bool :=
  status_eqb st Completed || status_eqb st Failed
  || status_eqb st Cancelled || status_eqb st Skipped.

Definition old_enough (maxAge now : nat) (t : transfer) : bool :=
  match completedAt t with
  | Some c => negb (Nat.eqb c 0) && Nat.ltb maxAge (now - c)
  | None => false
  end.

Definition clearOldTransfers (maxAge now : nat) (s : TM) : TM :=
  let toDelete :=
    map fst (filter (fun kv => is_terminal (status (snd kv)) && old_enough maxAge now (snd kv))
               (transfers s)) in
  with_transfers (fold_left (fun m k => map_delete k m) toDelete (transfers s)) s.

(** [getStatistics()] *)
Record statistics := Statistics {
  st_total : nat;
  st_queued : nat;
  st_active : nat;
  st_completed : nat;
  st_failed : nat;
  st_cancelled : nat;
  st_skipped : nat
}.

Definition count_status (st : transferStatus) (s : TM) : nat :=
  length (filter (fun kv => status_eqb (status (snd kv)) st) (transfers s)).

Definition getStatistics (s : TM) : statistics :=
  Statistics (length (transfers s)) (count_status Queued s) (count_status Active s)
    (count_status Completed s) (count_status Failed s) (count_status Cancelled s)
    (count_status Skipped s).

(** The operations that drive the manager, one event at a time. *)
Inductive event :=
| EvCreate (src dst : server) (files : list file) (now : nat)
| EvProgress (n : nat) (p : progressInfo)
| EvFinish (n : nat) (o : outcome) (now : nat)
| EvCancel (tid : nat) (now : nat)
| EvSetMax (m : nat)
| EvClear (maxAge now : nat).

Definition step (s : TM) (e : event) : TM :=
  match e with
  | EvCreate src dst files now => fst (createTransfers src dst files now s)
  | EvProgress n p => progressCallback n p s
  | EvFinish n o now => finishTransfer n o now s
  | EvCancel tid now => snd (cancelTransfer tid now s)
  | EvSetMax m => setMaxConcurrent m s
  | EvClear maxAge now => clearOldTransfers maxAge now s
  end.

Definition run (s : TM) (evs : list event) : TM := fold_left step evs s.

Inductive reachable : TM -> Prop :=
| reach_init : reachable init
| reach_step s e : reachable s -> reachable (step s e).

(** Sample servers and files for concrete runs. *)
Definition srvA1 : server := Server "a1" ex_src.
Definition srvA2 : server := Server "a2" ex_dst.
Definition srvB1 : server := Server "b1" ex_dst.
Definition srvB2 : server := Server "b2" ex_src.

Definition mk_file (p : string) : file := File p p 1.

End Orchestrator.

(* ------------------------------------------------------------------ *)
(** ** The rsync progress parser of [startRsyncTransfer] *)

Module RsyncProgress.
Import Orchestrator.

(** A backtracking matcher for the regular expressions the parser uses,
    with the ECMAScript semantics: greedy quantifiers, a [*] iteration that
    matches the empty string fails, captures of the last match of a group. *)
Inductive rx :=
| RClass (p : ascii -> bool)
| RSeq (a b : rx)
| RStar (a : rx)
| ROpt (a : rx)
| RGroup (n : nat) (a : rx).

Definition RPlus (a : rx) : rx := RSeq a (RStar a).
Definition RLit (c : ascii) : rx := RClass (Ascii.eqb c).

Definition caps := list (nat * list ascii).

(** Continuation-passing matcher; [fuel] bounds the number of [*]
    iterations along a path (each consumes a character). *)
Fixpoint mt {T} (fuel : nat) : rx -> list ascii -> caps ->
    (list ascii -> caps -> option T) -> option T :=
  fix go r s c k :=
    match r with
    | RClass p =>
        match s with
        | x :: s' => if p x then k s' c else None
        | [] => None
        end
    | RSeq a b => go a s c (fun s' c' => go b s' c' k)
    | RStar a =>
        match fuel with
        | 0 => k s c
        | S f =>
            match go a s c (fun s' c' =>
                    if Nat.ltb (length s') (length s) then mt f (RStar a) s' c' k
                    else None) with
            | Some res => Some res
            | None => k s c
            end
        end
    | ROpt a =>
        match go a s c k with
        | Some res => Some res
        | None => k s c
        end
    | RGroup n a =>
        go a s c (fun s' c' => k s' ((n, firstn (length s - length s') s) :: c'))
    end.

(** [RegExp.prototype.exec] without the [g] flag: the leftmost match. *)
Fixpoint exec_from (r : rx) (s : list ascii) : option caps :=
  match mt (S (length s)) r s [] (fun _ c => Some c) with
  | Some c => Some c
  | None =>
      match s with
      | [] => None
      | _ :: s' => exec_from r s'
      end
  end.

Fixpoint capture (n : nat) (c : caps) : option (list ascii) :=
  match c with
  | [] => None
  | (m, v) :: c' => if Nat.eqb n m then Some v else capture n c'
  end.

Definition is_digit (x : ascii) : bool :=
  let n := nat_of_ascii x in Nat.leb 48 n && Nat.leb n 57.

(** [\s] on 8-bit characters: tab, LF, VT, FF, CR, space, NBSP. *)
Definition is_space (x : ascii) : bool :=
  let n := nat_of_ascii x in
  (Nat.leb 9 n && Nat.leb n 13) || Nat.eqb n 32 || Nat.eqb n 160.

Definition D : rx := RClass is_digit.
Definition SP : rx := RPlus (RClass is_space).

(** The pattern of line 58 of ssh-manager.js, group by group:
    [(\d+(?:,\d+)* )] [\s+] [(\d+)] [%] [\s+] [([\d.]+[KMG]?B\/s)] [\s+]
    [(\d+:\d+:\d+)] (the space before the first closing bracket is not in
    the source). *)
Definition progress_re : rx :=
  RSeq (RGroup 1 (RSeq (RPlus D) (RStar (RSeq (RLit ","%char) (RPlus D)))))
  (RSeq SP
  (RSeq (RGroup 2 (RPlus D))
  (RSeq (RLit "%"%char)
  (RSeq SP
  (RSeq (RGroup 3
           (RSeq (RPlus (RClass (fun x => is_digit x || Ascii.eqb x "."%char)))
           (RSeq (ROpt (RClass (fun x => Ascii.eqb x "K"%char || Ascii.eqb x "M"%char || Ascii.eqb x "G"%char)))
           (RSeq (RLit "B"%char) (RSeq (RLit "/"%char) (RLit "s"%char))))))
  (RSeq SP
        (RGroup 4 (RSeq (RPlus D) (RSeq (RLit ":"%char) (RSeq (RPlus D)
                  (RSeq (RLit ":"%char) (RPlus D)))))))))))).

(** [parseInt(str)] on a string: leading decimal digits, [NaN] if none. *)
Fixpoint digits_value (acc : Z) (s : list ascii) : Z * bool :=
  match s with
  | x :: s' =>
      if is_digit x
      then digits_value (acc * 10 + Z.of_nat (nat_of_ascii x - 48)) s'
      else (acc, true)
  | [] => (acc, true)
  end.

Definition parseInt (s : list ascii) : num :=
  match s with
  | x :: _ => if is_digit x then Fin (fst (digits_value 0 s)) else NaN
  | [] => NaN
  end.

(** [transferred.replace(/,/g, '')] *)
Definition remove_commas (s : list ascii) : list ascii :=
  filter (fun x => negb (Ascii.eqb x ","%char)) s.

(** [text.match(...)] and the construction of [progress]. *)
Definition parse_progress (text : string) : option progressInfo :=
  match exec_from progress_re (list_ascii_of_string text) with
  | None => None
  | Some c =>
      match capture 1 c, capture 2 c, capture 3 c, capture 4 c with
      | Some tr, Some pc, Some sp, Some et =>
          Some (ProgressInfo (parseInt pc) (parseInt (remove_commas tr))
                  (Some (string_of_list_ascii sp)) (Some (string_of_list_ascii et)))
      | _, _, _, _ => None
      end
  end.

(** The per-stream locals of the [conn.exec] callback. *)
Record stream_state := StreamState {
  stdout : string;
  lastProgress : option progressInfo
}.

Definition stream_init : stream_state := StreamState "" None.

(** [stream.on('data', ...)]: the new locals and the [progressCallback]
    invocations made for this chunk. *)
Definition on_data (st : stream_state) (text : string)
    : stream_state * list progressInfo :=
  let out := String.append (stdout st) text in
  match parse_progress text with
  | None => (StreamState out (lastProgress st), [])
  | Some p =>
      let changed := match lastProgress st with
                     | None => true
                     | Some lp => num_neq (percentage lp) (percentage p)
                     end in
      if changed then (StreamState out (Some p), [p])
      else (StreamState out (lastProgress st), [])
  end.

Fixpoint feed (st : stream_state) (chunks : list string)
    : stream_state * list progressInfo :=
  match chunks with
  | [] => (st, [])
  | c :: cs =>
      let '(st1, out1) := on_data st c in
      let '(st2, out2) := feed st1 cs in
      (st2, app out1 out2)
  end.

(** ["1,234,567  45%  1.23MB/s  0:00:12\n"] *)
Definition sample_chunk : string :=
  String.append "1,234,567  45%  1.23MB/s  0:00:12" (String (ascii_of_nat 10) "").

End RsyncProgress.

(* ------------------------------------------------------------------ *)
(** ** The [POST /api/transfers] handler *)

Module Routes.
Import Orchestrator.

(** [req.body]: [files] is [None] when absent or not an array. *)
Record request := Request {
  req_sourceServerId : jsstr;
  req_destServerId : jsstr;
  req_files : option (list file)
}.

(** [config.servers.find(s => s.id === id)] *)
Definition find_server (sid : string) (servers : list server) : option server :=
  find (fun sv => String.eqb (server_id sv) sid) servers.

(** The handler: the HTTP status it answers with and the manager's state
    afterwards. *)
Definition post_transfers (servers : list server) (req : request) (now : nat)
    (s : TM) : nat * TM :=
  let sourceServerId := req_sourceServerId req in
  let destServerId := req_destServerId req in
  if negb (truthy sourceServerId) || negb (truthy destServerId) then (400, s)
  else
    match req_files req with
    | None => (400, s)
    | Some files =>
        if Nat.eqb (length files) 0 then (400, s)
        else
          match find_server (render sourceServerId) servers,
                find_server (render destServerId) servers with
          | None, _ => (404, s)
          | Some _, None => (404, s)
          | Some sourceServer, Some destServer =>
              if String.eqb (render sourceServerId) (render destServerId) then (400, s)
              else (200, fst (createTransfers sourceServer destServer files now s))
          end
    end.

End Routes.

(* ------------------------------------------------------------------ *)
(** ** The read and cancel routes of [/api/transfers] and [getAllTransfers] *)

Module Queries.
Import Orchestrator Routes.

(** The string value of [transfer.status]. *)
Definition status_name (st : transferStatus) : string :=
  match st with
  | Queued => "queued"
  | Active => "active"
  | Completed => "completed"
  | Failed => "failed"
  | Cancelled => "cancelled"
  | Skipped => "skipped"
  end.

(** The [filters] argument of [getAllTransfers]: an absent key is [None]. *)
Record filters := Filters {
  filter_status : jsstr;
  filter_sourceServerId : jsstr;
  filter_destServerId : jsstr
}.

(** [if (v) { transfers = transfers.filter(t => field(t) === v); }] *)
Definition filter_by (v : jsstr) (field : transfer -> string) (ts : list transfer)
    : list transfer :=
  if truthy v then filter (fun t => String.eqb (field t) (render v)) ts else ts.

(** [transfers.sort((a, b) => b.createdAt - a.createdAt)]. The comparator is
    consistent and [Array.prototype.sort] is stable, so the result is the
    one stable ordering by decreasing [createdAt]: insertion sort, each
    element going after the ones not older than it. *)
Fixpoint insert_by_createdAt (t : transfer) (l : list transfer) : list transfer :=
  match l with
  | [] => [t]
  | x :: l' =>
      if Nat.ltb (createdAt x) (createdAt t) then t :: l
      else x :: insert_by_createdAt t l'
  end.

Definition sort_by_createdAt (ts : list transfer) : list transfer :=
  fold_left (fun acc t => insert_by_createdAt t acc) ts [].

(** [getAllTransfers(filters)]: [Array.from(this.transfers.values())]
    (insertion order), the three filters, then the sort. *)
Definition getAllTransfers (fl : filters) (s : TM) : list transfer :=
  let ts := map snd (transfers s) in
  let ts := filter_by (filter_status fl) (fun t => status_name (status t)) ts in
  let ts := filter_by (filter_sourceServerId fl) sourceServerId ts in
  let ts := filter_by (filter_destServerId fl) destServerId ts in
  sort_by_createdAt ts.

(** [req.query] of [GET /api/transfers]. *)
Record query := Query {
  query_status : jsstr;
  query_sourceServerId : jsstr;
  query_destServerId : jsstr
}.

(** [GET /api/transfers]: a filter key is set only for a truthy query
    parameter; the answer carries [transfers] and [count]. *)
Definition get_transfers (q : query) (s : TM) : list transfer * nat :=
  let pick (v : jsstr) := if truthy v then v else None in
  let ts := getAllTransfers
              (Filters (pick (query_status q)) (pick (query_sourceServerId q))
                 (pick (query_destServerId q))) s in
  (ts, length ts).

(** [DELETE /api/transfers/:id]: the HTTP status and the manager's state. *)
Definition delete_transfer (servers : list server) (tid now : nat) (s : TM)
    : nat * TM :=
  match getTransfer tid s with
  | None => (404, s)
  | Some t =>
      match find_server (sourceServerId t) servers with
      | None => (404, s)
      | Some _ =>
          match cancelTransfer tid now s with
          | (Some true, s') => (200, s')
          | (Some false, s') => (400, s')
          | (None, s') => (500, s')
          end
      end
  end.

End Queries.

(* ------------------------------------------------------------------ *)
(** ** The path checks of [GET /api/files/:serverId] and
    [GET /api/files/:serverId/info] (the files router) *)

Module FilesRoutes.
Import PathMapper Orchestrator Routes.

(** What a handler does: answer with an error status, or go on to
    [sshManager.listFiles(server, path)] / [sshManager.getFileInfo(server, path)]. *)
Inductive files_outcome :=
| FilesAnswer (code : nat)
| ListFiles (sv : server) (path : string)
| GetFileInfo (sv : server) (path : string).

(** [[mediaPaths?.root, mediaPaths?.movies, mediaPaths?.tv].filter(Boolean)] *)
Definition allowedPaths (mp : mediaPaths) : list jsstr :=
  filter truthy [root mp; movies mp; tv mp].

(** [allowedPaths.some(allowedPath => path.startsWith(allowedPath))];
    [None] when the callback throws because [path] is undefined. *)
Fixpoint some_prefix (allowed : list jsstr) (path : jsstr) : option bool :=
  match allowed with
  | [] => Some false
  | a :: rest =>
      match path with
      | None => None
      | Some p => if String.prefix (render a) p then Some true else some_prefix rest path
      end
  end.

Definition check_outcome (r : option bool) (go : files_outcome) : files_outcome :=
  match r with
  | None => FilesAnswer 500
  | Some false => FilesAnswer 403
  | Some true => go
  end.

(** [GET /api/files/:serverId] with [req.query.path]. *)
Definition files_list_route (servers : list server) (serverId : string) (qpath : jsstr)
    : files_outcome :=
  match find_server serverId servers with
  | None => FilesAnswer 404
  | Some sv =>
      let mp := server_mediaPaths sv in
      let path := js_or (js_or (js_or qpath (root mp)) (movies mp)) (tv mp) in
      check_outcome (some_prefix (allowedPaths mp) path) (ListFiles sv (render path))
  end.

(** [GET /api/files/:serverId/info] with [req.query.path]. *)
Definition files_info_route (servers : list server) (serverId : string) (qpath : jsstr)
    : files_outcome :=
  match find_server serverId servers with
  | None => FilesAnswer 404
  | Some sv =>
      if negb (truthy qpath) then FilesAnswer 400
      else
        let mp := server_mediaPaths sv in
        check_outcome (some_prefix (allowedPaths mp) qpath) (GetFileInfo sv (render qpath))
  end.

End FilesRoutes.

(* ------------------------------------------------------------------ *)
(** ** Shell quoting of paths in [SSHManager] *)

Module ShellQuote.

Definition squote : ascii := "'"%char.
Definition bslash : ascii := "\"%char.

(** [path.replace(/'/g, "'\\''")]: every single quote becomes the four
    characters quote, backslash, quote, quote. *)
Fixpoint escape_sq (s : string) : string :=
  match s with
  | EmptyString => EmptyString
  | String c s' =>
      if Ascii.eqb c squote
      then String squote (String bslash (String squote (String squote (escape_sq s'))))
      else String c (escape_sq s')
  end.

(** The [ssh] settings of a server configuration that the commands use. *)
Record ssh_settings := SshSettings {
  ssh_host : jsstr;
  ssh_port : option nat;
  ssh_username : jsstr
}.

(** The [rsyncCommand] template of [startRsyncTransfer]. *)
Definition rsyncCommand (sourcePath destPath : string) (destConfig : ssh_settings)
    : string :=
  String.append "rsync -avz --info=progress2 --partial --mkpath '"
  (String.append (escape_sq sourcePath)
  (String.append "' "
  (String.append (render (ssh_username destConfig))
  (String.append "@"
  (String.append (render (ssh_host destConfig))
  (String.append ":'"
  (String.append (escape_sq destPath) "'"))))))).

(** The command of [listFiles(serverConfig, path)]. *)
Definition listFiles_command (path : string) : string :=
  String.append "ls -lAh --time-style=+%s '"
    (String.append (escape_sq path) "' 2>&1").

(** The command of [getFileInfo(serverConfig, path)]. *)
Definition getFileInfo_command (path : string) : string :=
  String.append "stat -c '%s %Y %a %U %G' '"
    (String.append (escape_sq path) "' 2>&1").

(** How the POSIX shell reads words (token recognition and quote removal),
    for the characters these commands are made of: single quotes, backslash
    escapes, blanks and ordinary characters. An unquoted character of any
    other kind (operators, expansions, globs, comments) is not modelled and
    gives [None]. *)
Definition is_blank (c : ascii) : bool :=
  Ascii.eqb c " "%char || Ascii.eqb c (ascii_of_nat 9).

Definition is_ordinary (c : ascii) : bool :=
  let n := nat_of_ascii c in
  (Nat.leb 48 n && Nat.leb n 57) || (Nat.leb 65 n && Nat.leb n 90)
  || (Nat.leb 97 n && Nat.leb n 122)
  || existsb (Ascii.eqb c) (list_ascii_of_string "@:._-/+,=%").

Definition newline : ascii := ascii_of_nat 10.

(** One word from the start of [s] ([inq]: inside single quotes): the word
    after quote removal and the text after it. *)
Fixpoint sh_word (inq : bool) (s : string) : option (string * string) :=
  match s with
  | EmptyString => if inq then None else Some (EmptyString, EmptyString)
  | String c s' =>
      if inq then
        if Ascii.eqb c squote then sh_word false s'
        else option_map (fun wr => (String c (fst wr), snd wr)) (sh_word true s')
      else if Ascii.eqb c squote then sh_word true s'
      else if Ascii.eqb c bslash then
        match s' with
        | EmptyString => None
        | String d s'' =>
            if Ascii.eqb d newline then sh_word false s''
            else option_map (fun wr => (String d (fst wr), snd wr)) (sh_word false s'')
        end
      else if is_blank c then Some (EmptyString, s)
      else if is_ordinary c then
        option_map (fun wr => (String c (fst wr), snd wr)) (sh_word false s')
      else None
  end.

Fixpoint skip_blanks (s : string) : string :=
  match s with
  | String c s' => if is_blank c then skip_blanks s' else s
  | EmptyString => s
  end.

(** The argument vector of a simple command. *)
Fixpoint sh_words_go (fuel : nat) (s : string) : option (list string) :=
  match fuel with
  | 0 => None
  | S f =>
      match skip_blanks s with
      | EmptyString => Some []
      | s1 =>
          match sh_word false s1 with
          | Some (w, r) => option_map (cons w) (sh_words_go f r)
          | None => None
          end
      end
  end.

Definition sh_words (s : string) : option (list string) :=
  sh_words_go (S (String.length s)) s.

End ShellQuote.

(* ------------------------------------------------------------------ *)
(** ** Numbers as strings: [String(n)] and [parseInt] *)

Module JsNumber.
Import Orchestrator RsyncProgress.

(** A non-negative integer as a template literal or [String(n)] prints it. *)
Definition number_to_string (n : nat) : string :=
  DecimalString.NilZero.string_of_uint (Nat.to_uint n).

Definition is_hex_digit (c : ascii) : bool :=
  let n := nat_of_ascii c in
  is_digit c || (Nat.leb 65 n && Nat.leb n 70) || (Nat.leb 97 n && Nat.leb n 102).

Definition digit_value (c : ascii) : Z :=
  let n := nat_of_ascii c in
  if Nat.leb n 57 then Z.of_nat (n - 48)
  else if Nat.leb n 70 then Z.of_nat (n - 55)
  else Z.of_nat (n - 87).

(** The longest prefix of radix digits, read in that radix; [None] if empty. *)
Fixpoint radix_digits (hex : bool) (acc : Z) (seen : bool) (s : list ascii) : option Z :=
  match s with
  | c :: s' =>
      if (if hex then is_hex_digit c else is_digit c)
      then radix_digits hex (acc * (if hex then 16 else 10) + digit_value c) true s'
      else if seen then Some acc else None
  | [] => if seen then Some acc else None
  end.

Fixpoint drop_spaces (s : list ascii) : list ascii :=
  match s with
  | c :: s' => if is_space c then drop_spaces s' else s
  | [] => []
  end.

(** [parseInt(string)] with no radix: leading white space, a sign, a [0x]
    prefix for hexadecimal, then the longest run of digits ([NaN] if none).
    Integers are exact (the double rounding above 2^53 is not modelled). *)
Definition js_parseInt (str : string) : num :=
  let l := drop_spaces (list_ascii_of_string str) in
  let '(sign, l) :=
    match l with
    | c :: l' =>
        if Ascii.eqb c "-"%char then (-1, l')
        else if Ascii.eqb c "+"%char then (1, l') else (1, l)
    | [] => (1, l)
    end%Z in
  let '(hex, l) :=
    match l with
    | z :: x :: l' =>
        if Ascii.eqb z "0"%char && (Ascii.eqb x "x"%char || Ascii.eqb x "X"%char)
        then (true, l') else (false, l)
    | _ => (false, l)
    end in
  match radix_digits hex 0 false l with
  | Some v => Fin (sign * v)
  | None => NaN
  end.


End JsNumber.

(* ------------------------------------------------------------------ *)
(** ** [executeCommand] results and [getFileInfo] *)

Module FileInfo.
Import Orchestrator RsyncProgress JsNumber.







End FileInfo.

(* ------------------------------------------------------------------ *)
(** ** The SSH connection cache of [SSHManager] *)

Module SshPool.
Import ShellQuote JsNumber.

(** An ssh2 [Client]; [destroyed] is its flag of that name. *)
Record conn := Conn {
  conn_no : nat;
  destroyed : bool
}.

(** [this.connections]: a [Map] from connection keys, in insertion order. *)
Definition pool := list (string * conn).

Fixpoint pool_get (k : string) (m : pool) : option conn :=
  match m with
  | [] => None
  | (k', v) :: m' => if String.eqb k k' then Some v else pool_get k m'
  end.

Fixpoint pool_set (k : string) (v : conn) (m : pool) : pool :=
  match m with
  | [] => [(k, v)]
  | (k', v') :: m' => if String.eqb k k' then (k, v) :: m' else (k', v') :: pool_set k v m'
  end.

Definition pool_delete (k : string) (m : pool) : pool :=
  filter (fun kv => negb (String.eqb (fst kv) k)) m.

(** [`${port}`] for a port that may be undefined. *)
Definition port_string (p : option nat) : string :=
  match p with
  | Some n => number_to_string n
  | None => "undefined"
  end.

(** [`${serverConfig.ssh.host}:${serverConfig.ssh.port}`] *)
Definition connectionKey (cfg : ssh_settings) : string :=
  String.append (render (ssh_host cfg)) (String.append ":" (port_string (ssh_port cfg))).

(** The synchronous part of [connect(serverConfig)]: either the cached,
    not destroyed connection is returned, or a destroyed one is dropped and
    a new [Client] ([fresh]) starts connecting. *)
Inductive connect_result := Reused (c : conn) | Dialing (c : conn).

Definition connect (cfg : ssh_settings) (fresh : nat) (m : pool)
    : connect_result * pool :=
  let key := connectionKey cfg in
  match pool_get key m with
  | Some c => if negb (destroyed c) then (Reused c, m) else (Dialing (Conn fresh false), pool_delete key m)
  | None => (Dialing (Conn fresh false), m)
  end.

(** [conn.on('ready')], and [conn.on('error')] / [conn.on('close')]. *)
Definition on_ready (cfg : ssh_settings) (c : conn) (m : pool) : pool :=
  pool_set (connectionKey cfg) c m.
Definition on_close (cfg : ssh_settings) (m : pool) : pool :=
  pool_delete (connectionKey cfg) m.

(** [disconnect(host, port = 22)]; [port] is [None] when omitted. *)
Definition disconnect (host : string) (port : option nat) (m : pool) : pool :=
  let p := match port with Some n => n | None => 22 end in
  let key := String.append host (String.append ":" (number_to_string p)) in
  match pool_get key m with
  | Some _ => pool_delete key m
  | None => m
  end.

(** [disconnectAll()] *)
Definition disconnectAll (m : pool) : pool := [].

End SshPool.

(* ------------------------------------------------------------------ *)
(** * Properties *)

Import Orchestrator RsyncProgress Routes.

(** ** Association-list lemmas for [this.transfers] *)

Lemma map_get_set_eq (k : nat) (v : transfer) (m : tmap) :
  map_get k (map_set k v m) = Some v.
Proof.
  induction m as [|[k' v'] m IH]; simpl.
  - now rewrite Nat.eqb_refl.
  - destruct (Nat.eqb k k') eqn:E; simpl.
    + now rewrite Nat.eqb_refl.
    + now rewrite E.
Qed.

Lemma map_get_set_neq (k j : nat) (v : transfer) (m : tmap) :
  j <> k -> map_get j (map_set k v m) = map_get j m.
Proof.
  intros Hne. induction m as [|[k' v'] m IH]; simpl.
  - apply Nat.eqb_neq in Hne. now rewrite Hne.
  - destruct (Nat.eqb k k') eqn:E; simpl.
    + apply Nat.eqb_eq in E. subst k'.
      apply Nat.eqb_neq in Hne. now rewrite Hne.
    + destruct (Nat.eqb j k'); auto.
Qed.

Lemma map_get_set (k j : nat) (v : transfer) (m : tmap) :
  map_get j (map_set k v m) = if Nat.eqb j k then Some v else map_get j m.
Proof.
  destruct (Nat.eqb j k) eqn:E.
  - apply Nat.eqb_eq in E. subst. apply map_get_set_eq.
  - apply Nat.eqb_neq in E. now apply map_get_set_neq.
Qed.

Lemma map_get_update (k j : nat) (f : transfer -> transfer) (m : tmap) :
  map_get j (map_update k f m) =
  if Nat.eqb j k then option_map f (map_get k m) else map_get j m.
Proof.
  unfold map_update. destruct (map_get k m) eqn:E; simpl.
  - apply map_get_set.
  - destruct (Nat.eqb j k) eqn:E2; auto.
    apply Nat.eqb_eq in E2. now subst.
Qed.

Lemma map_get_delete (k j : nat) (m : tmap) :
  map_get j (map_delete k m) = if Nat.eqb j k then None else map_get j m.
Proof.
  unfold map_delete. induction m as [|[k' v'] m IH]; simpl.
  - now destruct (Nat.eqb j k).
  - destruct (Nat.eqb k' k) eqn:E; simpl.
    + rewrite IH. apply Nat.eqb_eq in E. subst k'.
      destruct (Nat.eqb j k); auto.
    + rewrite IH. destruct (Nat.eqb j k') eqn:E2; auto.
      apply Nat.eqb_eq in E2. subst k'. now rewrite E.
Qed.

Lemma map_get_in_keys (k : nat) (t : transfer) (m : tmap) :
  map_get k m = Some t -> In k (map fst m).
Proof.
  induction m as [|[k' v'] m IH]; simpl; [discriminate|].
  destruct (Nat.eqb k k') eqn:E; intros H.
  - left. symmetry. now apply Nat.eqb_eq.
  - right. auto.
Qed.

Lemma keys_set_in (k : nat) (v : transfer) (m : tmap) :
  In k (map fst m) -> map fst (map_set k v m) = map fst m.
Proof.
  induction m as [|[k' v'] m IH]; simpl; [contradiction|].
  intros H. destruct (Nat.eqb k k') eqn:E; simpl.
  - apply Nat.eqb_eq in E. now subst.
  - f_equal. apply IH. destruct H as [H|H]; auto.
    subst. now rewrite Nat.eqb_refl in E.
Qed.

Lemma keys_set_notin (k : nat) (v : transfer) (m : tmap) :
  ~ In k (map fst m) -> map fst (map_set k v m) = app (map fst m) [k].
Proof.
  induction m as [|[k' v'] m IH]; simpl; auto.
  intros H. destruct (Nat.eqb k k') eqn:E; simpl.
  - apply Nat.eqb_eq in E. subst. exfalso. auto.
  - f_equal. auto.
Qed.

Lemma keys_update (k : nat) (f : transfer -> transfer) (m : tmap) :
  map fst (map_update k f m) = map fst m.
Proof.
  unfold map_update. destruct (map_get k m) eqn:E; auto.
  apply keys_set_in. eapply map_get_in_keys; eauto.
Qed.

(** ** Path mapper *)

(** [destMediaPaths[mediaType]] *)
Definition category (mt : PathMapper.mediaType) (dst : PathMapper.mediaPaths) : jsstr :=
  match mt with
  | PathMapper.MTmovies => PathMapper.movies dst
  | PathMapper.MTtv => PathMapper.tv dst
  | PathMapper.MTroot => PathMapper.root dst
  end.

Lemma js_or_truthy (a b : jsstr) :
  truthy (js_or a b) = truthy a || truthy b.
Proof. unfold js_or. destruct (truthy a) eqn:E; simpl; auto. Qed.

(** C5: on the spec's category tables [{movies:"/a/movies", tv:"/a/tv",
    root:"/a"}] and [{movies:"/b/Movies", tv:"/b/TV", root:"/b"}],
    [buildDestPath] maps [/a/movies/X/f.mkv] to [/b/Movies/X/f.mkv],
    [/a/tv/Show/S01/e1.mkv] to [/b/TV/Show/S01/e1.mkv], [/a/other/file.mkv]
    to [/b/other/file.mkv] and the unmatched [/z/file.mkv] to [/b/file.mkv]. *)
Theorem buildDestPath_worked_example :
  PathMapper.buildDestPath "/a/movies/X/f.mkv" PathMapper.ex_src PathMapper.ex_dst
    = "/b/Movies/X/f.mkv" /\
  PathMapper.buildDestPath "/a/tv/Show/S01/e1.mkv" PathMapper.ex_src PathMapper.ex_dst
    = "/b/TV/Show/S01/e1.mkv" /\
  PathMapper.buildDestPath "/a/other/file.mkv" PathMapper.ex_src PathMapper.ex_dst
    = "/b/other/file.mkv" /\
  PathMapper.buildDestPath "/z/file.mkv" PathMapper.ex_src PathMapper.ex_dst
    = "/b/file.mkv".
Proof. repeat split; vm_compute; reflexivity. Qed.

(** C8: once the source path is classified into category [mt] with
    remainder [rel], the result is [destBase + "/" + rel] with slashes
    collapsed, where [destBase] is [dest[mt]] when that is defined (truthy),
    otherwise [dest.root] when defined, otherwise another defined category
    of the destination ([movies] or [tv]) when there is one. *)
Theorem buildDestPath_base_order (sourcePath rel : string)
    (src dst : PathMapper.mediaPaths) (mt : PathMapper.mediaType)
    (Hm : PathMapper.source_match sourcePath src = (rel, mt)) :
  let b := PathMapper.dest_base_path mt dst in
  PathMapper.buildDestPath sourcePath src dst
    = PathMapper.collapse_slashes (String.append (render b) (String.append "/" rel)) /\
  (truthy (category mt dst) = true -> b = category mt dst) /\
  (truthy (category mt dst) = false -> truthy (PathMapper.root dst) = true ->
     b = PathMapper.root dst) /\
  (truthy (category mt dst) = false -> truthy (PathMapper.root dst) = false ->
     truthy (PathMapper.movies dst) || truthy (PathMapper.tv dst) = true ->
     truthy b = true /\ (b = PathMapper.movies dst \/ b = PathMapper.tv dst)).
Proof.
  intros b. unfold PathMapper.buildDestPath. rewrite Hm. split; [reflexivity|].
  unfold b, PathMapper.dest_base_path, js_or.
  destruct mt; simpl;
    destruct (truthy (PathMapper.movies dst)) eqn:Em;
    destruct (truthy (PathMapper.tv dst)) eqn:Et;
    destruct (truthy (PathMapper.root dst)) eqn:Er; simpl;
    repeat split; intros; try discriminate;
    rewrite ?Em, ?Et, ?Er; simpl; rewrite ?Em, ?Et, ?Er; auto.
Qed.

(** ** Progress parser *)

Lemma feed_two (st : stream_state) (c1 c2 : string) :
  snd (feed st [c1; c2])
  = app (snd (on_data st c1)) (snd (on_data (fst (on_data st c1)) c2)).
Proof.
  simpl. destruct (on_data st c1) as [st1 o1]. simpl.
  destruct (on_data st1 c2) as [st2 o2]. simpl. now rewrite app_nil_r.
Qed.

(** C6: the chunk ["1,234,567  45%  1.23MB/s  0:00:12\n"] yields exactly one
    progress sample [{transferred: 1234567, percentage: 45, speed:
    "1.23MB/s", eta: "0:00:12"}]; and two consecutive chunks that both parse
    to the same percentage invoke the callback at most once (exactly once,
    with the first sample, on a fresh stream). *)
Theorem rsync_progress_sample_and_dedup (st : stream_state) (c1 c2 : string)
    (p1 p2 : progressInfo) (z : Z)
    (H1 : parse_progress c1 = Some p1) (H2 : parse_progress c2 = Some p2)
    (Hz1 : percentage p1 = Fin z) (Hz2 : percentage p2 = Fin z) :
  snd (feed stream_init [sample_chunk])
    = [ProgressInfo (Fin 45) (Fin 1234567) (Some "1.23MB/s") (Some "0:00:12")] /\
  length (snd (feed st [c1; c2])) <= 1 /\
  snd (feed stream_init [c1; c2]) = [p1].
Proof.
  split; [vm_compute; reflexivity|].
  assert (Hsecond : forall st1, (exists q, lastProgress st1 = Some q /\ percentage q = Fin z) ->
            snd (on_data st1 c2) = []).
  { intros st1 [q [Hq Hqz]]. unfold on_data. rewrite H2, Hq, Hqz, Hz2.
    simpl. now rewrite Z.eqb_refl. }
  assert (Hfirst : exists q, lastProgress (fst (on_data st c1)) = Some q /\ percentage q = Fin z).
  { unfold on_data. rewrite H1. destruct (lastProgress st) as [lp|] eqn:Elp.
    - destruct (num_neq (percentage lp) (percentage p1)) eqn:En; simpl.
      + eauto.
      + exists lp. split; auto. rewrite Hz1 in En.
        destruct (percentage lp); simpl in En; try discriminate.
        apply negb_false_iff, Z.eqb_eq in En. now subst.
    - simpl. eauto. }
  split.
  - rewrite feed_two, (Hsecond _ Hfirst), app_nil_r.
    unfold on_data. rewrite H1.
    destruct (match lastProgress st with Some lp => num_neq (percentage lp) (percentage p1)
              | None => true end); simpl; lia.
  - rewrite feed_two. unfold on_data at 1. rewrite H1. simpl.
    rewrite Hsecond; [reflexivity|].
    unfold on_data. rewrite H1. simpl. eauto.
Qed.

(** ** Cancellation *)

Lemma cancel_terminal (s : TM) (tid now : nat) (t : transfer) :
  getTransfer tid s = Some t -> is_terminal (status t) = true ->
  cancelTransfer tid now s = (Some false, s).
Proof.
  unfold getTransfer, cancelTransfer. intros Hget Hterm. rewrite Hget.
  revert Hterm. unfold is_terminal. destruct (status t); simpl; intros; congruence.
Qed.

(** C7: on a record in a terminal state [cancelTransfer] resolves to [false]
    and changes nothing; on a queued or active record the first call
    resolves to [true] and a second call on the same id to [false]. *)
Theorem cancelTransfer_true_then_false :
  (forall (s : TM) (tid now : nat) (t : transfer),
     getTransfer tid s = Some t -> is_terminal (status t) = true ->
     cancelTransfer tid now s = (Some false, s)) /\
  (forall (s : TM) (tid now1 now2 : nat) (t : transfer),
     getTransfer tid s = Some t -> status t = Queued \/ status t = Active ->
     fst (cancelTransfer tid now1 s) = Some true /\
     fst (cancelTransfer tid now2 (snd (cancelTransfer tid now1 s))) = Some false).
Proof.
  split; [exact cancel_terminal|].
  intros s tid now1 now2 t Hget Hst.
  assert (H1 : exists s1, cancelTransfer tid now1 s = (Some true, s1) /\
            getTransfer tid s1 = Some (with_completedAt now1 (with_status Cancelled t))).
  { unfold cancelTransfer. unfold getTransfer in Hget. rewrite Hget.
    destruct Hst as [Hst|Hst]; rewrite Hst; simpl; eexists; split; try reflexivity;
      unfold getTransfer; simpl; apply map_get_set_eq. }
  destruct H1 as [s1 [E Hg]]. rewrite E. simpl. split; auto.
  erewrite cancel_terminal; [reflexivity | exact Hg | reflexivity].
Qed.

(** ** The [POST /api/transfers] handler *)

(** [id] names no configured server (or is missing). *)
Definition unknown_host (servers : list server) (v : jsstr) : Prop :=
  forall sid, v = Some sid -> find_server sid servers = None.

(** C9: a submission with an empty file list, with identical source and
    destination ids, or with an unknown (or missing) server id is answered
    with 400 or 404 and leaves the manager's state unchanged. *)
Theorem post_transfers_rejects_malformed (servers : list server) (req : request)
    (now : nat) (s : TM)
    (Hbad : req_files req = Some [] \/
            req_sourceServerId req = req_destServerId req \/
            unknown_host servers (req_sourceServerId req) \/
            unknown_host servers (req_destServerId req)) :
  (fst (post_transfers servers req now s) = 400 \/
   fst (post_transfers servers req now s) = 404) /\
  snd (post_transfers servers req now s) = s.
Proof.
  unfold post_transfers. cbv zeta.
  destruct (negb (truthy (req_sourceServerId req)) || negb (truthy (req_destServerId req)))
    eqn:E1; [simpl; auto|].
  destruct (req_files req) as [files|] eqn:Ef; [|simpl; auto].
  destruct (Nat.eqb (length files) 0) eqn:E2; [simpl; auto|].
  destruct (find_server (render (req_sourceServerId req)) servers) as [ss|] eqn:E3;
    [|simpl; auto].
  destruct (find_server (render (req_destServerId req)) servers) as [ds|] eqn:E4;
    [|simpl; auto].
  destruct (String.eqb (render (req_sourceServerId req)) (render (req_destServerId req)))
    eqn:E5; [simpl; auto|].
  exfalso. apply orb_false_iff in E1 as [E1a E1b].
  destruct (req_sourceServerId req) as [x|] eqn:Es; [|discriminate].
  destruct (req_destServerId req) as [y|] eqn:Ed; [|discriminate].
  simpl in E3, E4, E5.
  destruct Hbad as [H|[H|[H|H]]].
  - rewrite ?Ef in H. injection H as H. subst. discriminate.
  - rewrite ?Es, ?Ed in H. injection H as <-. rewrite String.eqb_refl in E5. discriminate.
  - rewrite (H x eq_refl) in E3. discriminate.
  - rewrite (H y eq_refl) in E4. discriminate.
Qed.

(** ** Concrete runs of the manager *)

Lemma reachable_run (evs : list event) :
  forall s, reachable s -> reachable (run s evs).
Proof.
  induction evs as [|e evs IH]; simpl; intros s Hs; auto.
  apply IH. now constructor.
Qed.

Definition batchA : list file :=
  [mk_file "/a/movies/1.mkv"; mk_file "/a/movies/2.mkv"; mk_file "/a/tv/3.mkv"].
Definition batchB : list file := [mk_file "/b/Movies/4.mkv"].

(** C2 (defect): a record cancelled while active is overwritten with
    [completed] (or [failed]) when its rsync settles: [startTransfer]
    updates the captured record after the [await] without re-checking its
    status. From the initial state, one file is submitted (it is admitted at
    once), cancelled, and its rsync then succeeds (or fails). *)
Theorem cancelled_transfer_leaves_terminal_state :
  let s1 := run init [EvCreate srvA1 srvA2 [mk_file "/a/movies/1.mkv"] 1] in
  let c := cancelTransfer 0 2 s1 in
  option_map status (getTransfer 0 s1) = Some Active /\
  fst c = Some true /\
  option_map status (getTransfer 0 (snd c)) = Some Cancelled /\
  option_map status (getTransfer 0 (finishTransfer 0 Success 3 (snd c)))
    = Some Completed /\
  option_map status (getTransfer 0 (finishTransfer 0 (Failure "exit 23") 3 (snd c)))
    = Some Failed.
Proof. vm_compute. repeat split. Qed.

(** C4 (defect): [processQueue] hands its own [sourceServer] and
    [destServer] to [startTransfer]. Batch A (servers a1 -> a2, three files)
    fills the three slots; batch B (b1 -> b2, one file, id 3) waits; when the
    first A transfer completes, the admission pass it triggers launches B's
    record with A's servers. *)
Theorem admission_uses_triggering_servers :
  let s := run init [EvCreate srvA1 srvA2 batchA 1; EvCreate srvB1 srvB2 batchB 2;
                     EvFinish 0 Success 3] in
  option_map sourceServerId (getTransfer 3 s) = Some "b1" /\
  option_map destServerId (getTransfer 3 s) = Some "b2" /\
  map (fun l => (l_id l, server_id (l_source l), server_id (l_dest l))) (running s)
    = [(1, "a1", "a2"); (2, "a1", "a2"); (3, "a1", "a2")].
Proof. vm_compute. repeat split. Qed.

(** C3 (counterexample): the admission pass runs synchronously inside
    [createTransfers], so a record may already be [active] when the call
    returns: one file submitted to a fresh manager. *)
Theorem createTransfers_returns_active_record :
  let r := createTransfers srvA1 srvA2 [mk_file "/a/movies/1.mkv"] 1 init in
  snd r = [0] /\ option_map status (getTransfer 0 (fst r)) = Some Active.
Proof. vm_compute. split; reflexivity. Qed.

(** C1 (counterexample): lowering the bound with [setMaxConcurrent] does not
    preempt running transfers: three are active, then the bound becomes 1. *)
Theorem lowered_bound_is_exceeded :
  ~ (forall s, reachable s -> count_status Active s <= maxConcurrent s).
Proof.
  intros H.
  specialize (H (run init [EvCreate srvA1 srvA2 batchA 1; EvSetMax 1])
                (reachable_run _ _ reach_init)).
  vm_compute in H. lia.
Qed.

(** ** Generic preservation lemmas for the admission loop and the
    creation loop *)

Lemma status_eqb_true (a b : transferStatus) : status_eqb a b = true -> a = b.
Proof. destruct a, b; simpl; congruence. Qed.

Lemma status_eqb_refl (a : transferStatus) : status_eqb a a = true.
Proof. now destruct a. Qed.

Section Preservation.
Variable Inv : TM -> Prop.
Variables (src dst : server) (now : nat).

(** Shifting the queue keeps [Inv]. *)
Hypothesis inv_queue : forall s q, Inv s -> Inv (with_queue q s).

(** Admitting a queued record while a slot is free keeps [Inv]. *)
Hypothesis inv_admit : forall s tid t,
  Inv s -> map_get tid (transfers s) = Some t -> status t = Queued ->
  length (activeTransfers s) < maxConcurrent s ->
  Inv (startTransfer tid src dst now (with_active (set_add tid (activeTransfers s)) s)).

Lemma processQueue_loop_inv (fuel : nat) :
  forall s, Inv s -> Inv (processQueue_loop fuel src dst now s).
Proof.
  induction fuel as [|fuel IH]; intros s Hs; simpl; auto.
  destruct (queue s) as [|tid q'] eqn:Eq; auto.
  destruct (Nat.ltb (length (activeTransfers s)) (maxConcurrent s)) eqn:Elt; auto.
  apply Nat.ltb_lt in Elt.
  destruct (map_get tid (transfers s)) as [t|] eqn:Eg;
    [|apply IH, inv_queue; auto].
  destruct (status_eqb (status t) Queued) eqn:Es; [|apply IH, inv_queue; auto].
  apply IH. apply (inv_admit (with_queue q' s) tid t); auto.
  now apply status_eqb_true.
Qed.

Lemma processQueue_inv (s : TM) : Inv s -> Inv (processQueue src dst now s).
Proof. apply processQueue_loop_inv. Qed.

(** Adding the record of one file keeps [Inv]. *)
Hypothesis inv_create : forall s f,
  Inv s ->
  Inv (MkTM (map_set (next_id s) (new_transfer (next_id s) src dst f now) (transfers s))
         (app (queue s) [next_id s]) (activeTransfers s) (maxConcurrent s)
         (S (next_id s)) (running s)).

Lemma create_loop_inv (files : list file) :
  forall s acc, Inv s -> Inv (fst (create_loop src dst now files s acc)).
Proof.
  induction files as [|f fs IH]; intros s acc Hs; simpl; auto.
Qed.

Lemma createTransfers_inv (files : list file) (s : TM) :
  Inv s -> Inv (fst (createTransfers src dst files now s)).
Proof.
  intros Hs. unfold createTransfers.
  pose proof (create_loop_inv files s [] Hs) as H.
  destruct (create_loop src dst now files s []) as [s1 ids]. simpl in *.
  now apply processQueue_inv.
Qed.

End Preservation.

(** ** No record is ever [skipped] *)

Definition all_values (P : transfer -> Prop) (m : tmap) : Prop :=
  Forall (fun kv => P (snd kv)) m.

Lemma all_values_get (P : transfer -> Prop) (k : nat) (t : transfer) (m : tmap) :
  all_values P m -> map_get k m = Some t -> P t.
Proof.
  unfold all_values. induction m as [|[k' v] m IH]; simpl; [discriminate|].
  intros Hall. inversion Hall; subst.
  destruct (Nat.eqb k k'); intros E; [injection E as <-; auto|auto].
Qed.

Lemma all_values_set (P : transfer -> Prop) (k : nat) (v : transfer) (m : tmap) :
  all_values P m -> P v -> all_values P (map_set k v m).
Proof.
  unfold all_values. induction m as [|[k' v'] m IH]; simpl; intros Hall Hv.
  - constructor; auto.
  - inversion Hall; subst. destruct (Nat.eqb k k'); constructor; auto.
Qed.

Lemma all_values_update (P : transfer -> Prop) (k : nat) (f : transfer -> transfer)
    (m : tmap) :
  all_values P m -> (forall t, P t -> P (f t)) -> all_values P (map_update k f m).
Proof.
  intros Hall Hf. unfold map_update.
  destruct (map_get k m) eqn:E; auto.
  apply all_values_set; auto. apply Hf. eapply all_values_get; eauto.
Qed.

Lemma all_values_delete (P : transfer -> Prop) (k : nat) (m : tmap) :
  all_values P m -> all_values P (map_delete k m).
Proof.
  unfold all_values, map_delete. intros Hall.
  apply Forall_forall. intros kv Hin. apply filter_In in Hin as [Hin _].
  now apply (proj1 (Forall_forall _ _) Hall).
Qed.

Lemma all_values_delete_many (P : transfer -> Prop) (ks : list nat) :
  forall m, all_values P m ->
  all_values P (fold_left (fun m k => map_delete k m) ks m).
Proof.
  induction ks as [|k ks IH]; simpl; auto.
  intros m Hm. apply IH. now apply all_values_delete.
Qed.

Definition not_skipped (t : transfer) : Prop := status t <> Skipped.

Definition no_skipped (s : TM) : Prop := all_values not_skipped (transfers s).

Lemma no_skipped_step (s : TM) (e : event) : no_skipped s -> no_skipped (step s e).
Proof.
  assert (Hpq : forall src dst now s, no_skipped s -> no_skipped (processQueue src dst now s)).
  { intros src dst now s0 H0. apply processQueue_inv; auto.
    intros s1 tid t Hs1 Hg _ _. unfold startTransfer. simpl. rewrite Hg.
    unfold no_skipped. simpl. apply all_values_set; auto.
    unfold not_skipped. simpl. discriminate. }
  intros Hs. destruct e as [src dst files now|n p|n o now|tid now|m|maxAge now]; simpl.
  - apply createTransfers_inv; auto.
    + intros s1 tid t Hs1 Hg _ _. unfold startTransfer. simpl. rewrite Hg.
      unfold no_skipped. simpl. apply all_values_set; auto.
      unfold not_skipped. simpl. discriminate.
    + intros s1 f Hs1. unfold no_skipped. simpl. apply all_values_set; auto.
      unfold not_skipped. simpl. discriminate.
  - unfold progressCallback. destruct (nth_error (running s) n); auto.
    unfold no_skipped. simpl. apply all_values_update; auto.
  - unfold finishTransfer. destruct (nth_error (running s) n) as [l|]; auto.
    apply Hpq. unfold no_skipped. simpl. apply all_values_update; auto.
    destruct o; intros t _; unfold not_skipped; simpl; discriminate.
  - unfold cancelTransfer. destruct (map_get tid (transfers s)) as [t|] eqn:Eg; auto.
    destruct (status_eqb (status t) Queued); [|destruct (status_eqb (status t) Active)];
      simpl; auto; unfold no_skipped; simpl; apply all_values_set; auto;
      unfold not_skipped; simpl; discriminate.
  - exact Hs.
  - unfold clearOldTransfers, no_skipped. simpl.
    now apply all_values_delete_many.
Qed.

Lemma reachable_no_skipped (s : TM) : reachable s -> no_skipped s.
Proof.
  induction 1.
  - constructor.
  - now apply no_skipped_step.
Qed.

(** C10: no operation of the manager assigns [skipped]: in every state
    reachable from the constructor, [getStatistics().skipped] is 0. *)
Theorem statistics_skipped_zero (s : TM) (Hr : reachable s) :
  st_skipped (getStatistics s) = 0.
Proof.
  apply reachable_no_skipped in Hr. unfold no_skipped, all_values in Hr.
  simpl. unfold count_status.
  induction (transfers s) as [|[k t] m IH]; simpl; auto.
  inversion Hr; subst. unfold not_skipped in *. simpl in *.
  destruct (status t) eqn:E; simpl; auto. contradiction.
Qed.

(** ** The ids returned by [createTransfers] *)

Lemma create_loop_spec (src dst : server) (now : nat) (files : list file) :
  forall s acc,
  let r := create_loop src dst now files s acc in
  snd r = app acc (seq (next_id s) (length files)) /\
  next_id (fst r) = next_id s + length files /\
  (forall k, k < next_id s -> map_get k (transfers (fst r)) = map_get k (transfers s)) /\
  (forall k, next_id s <= k < next_id s + length files ->
     exists t, map_get k (transfers (fst r)) = Some t /\ status t = Queued).
Proof.
  induction files as [|f fs IH]; intros s acc; simpl.
  - rewrite app_nil_r. repeat split; auto; intros k Hk; lia.
  - destruct (IH (MkTM (map_set (next_id s) (new_transfer (next_id s) src dst f now)
                          (transfers s)) (app (queue s) [next_id s]) (activeTransfers s)
                     (maxConcurrent s) (S (next_id s)) (running s))
                 (app acc [next_id s])) as [H1 [H2 [H3 H4]]].
    simpl in H1, H2, H3, H4.
    repeat split.
    + rewrite H1, <- app_assoc. reflexivity.
    + rewrite H2. lia.
    + intros k Hk. rewrite H3 by lia. apply map_get_set_neq. lia.
    + intros k Hk. destruct (Nat.eq_dec k (next_id s)) as [->|Hne].
      * rewrite H3 by lia. rewrite map_get_set_eq. eexists; split; reflexivity.
      * apply H4. lia.
Qed.

Definition queued_or_active (ids : list nat) (s : TM) : Prop :=
  forall k, In k ids ->
  exists t, getTransfer k s = Some t /\ (status t = Queued \/ status t = Active).


(** ** The concurrency bound *)

Lemma map_get_In (k : nat) (t : transfer) (m : tmap) :
  map_get k m = Some t -> In (k, t) m.
Proof.
  induction m as [|[k' v] m IH]; simpl; [discriminate|].
  destruct (Nat.eqb k k') eqn:E; intros H.
  - apply Nat.eqb_eq in E. injection H as <-. subst. now left.
  - right. auto.
Qed.

Lemma In_map_get (k : nat) (t : transfer) (m : tmap) :
  NoDup (map fst m) -> In (k, t) m -> map_get k m = Some t.
Proof.
  induction m as [|[k' v] m IH]; simpl; [contradiction|].
  intros Hnd Hin. inversion Hnd as [|? ? Hnin Hnd']; subst.
  destruct Hin as [Heq|Hin].
  - injection Heq as <- <-. now rewrite Nat.eqb_refl.
  - destruct (Nat.eqb k k') eqn:E; auto.
    apply Nat.eqb_eq in E. subst. exfalso. apply Hnin.
    now apply (in_map fst) in Hin.
Qed.

(** Filtering entries keeps the keys of a map distinct. *)
Lemma NoDup_map_filter {K V} (key : V -> K) (keep : V -> bool) (es : list V) :
  NoDup (map key es) -> NoDup (map key (filter keep es)).
Proof.
  induction es as [|x l IH]; simpl; auto.
  intros Hnd. inversion Hnd; subst.
  destruct (keep x); simpl; auto.
  constructor; auto. intros Hin. apply in_map_iff in Hin as [y [Hy Hin]].
  apply filter_In in Hin as [Hin _]. apply H1. rewrite <- Hy. now apply in_map.
Qed.

Lemma keys_filter_incl {A B} (f : A -> B) (p : A -> bool) (l : list A) (k : B) :
  In k (map f (filter p l)) -> In k (map f l).
Proof.
  intros Hin. apply in_map_iff in Hin as [y [Hy Hin]].
  apply filter_In in Hin as [Hin _]. rewrite <- Hy. now apply in_map.
Qed.

Lemma In_set_delete (j k : nat) (l : list nat) :
  In j (set_delete k l) <-> In j l /\ j <> k.
Proof.
  unfold set_delete. rewrite filter_In, negb_true_iff, Nat.eqb_neq. tauto.
Qed.

Lemma length_set_delete (k : nat) (l : list nat) :
  length (set_delete k l) <= length l.
Proof. unfold set_delete. apply filter_length_le. Qed.

Lemma set_add_fresh (k : nat) (l : list nat) :
  ~ In k l -> set_add k l = app l [k].
Proof.
  unfold set_add. intros Hn. destruct (existsb (Nat.eqb k) l) eqn:E; auto.
  apply existsb_exists in E as [x [Hx Ex]]. apply Nat.eqb_eq in Ex. subst. contradiction.
Qed.

(** [k] is the id of a record whose status is [active]. *)
Definition active_key (m : tmap) (k : nat) : Prop :=
  exists t, map_get k m = Some t /\ status t = Active.

Lemma active_key_set (m : tmap) (k j : nat) (v : transfer) :
  active_key (map_set k v m) j <->
  (if Nat.eqb j k then status v = Active else active_key m j).
Proof.
  unfold active_key. rewrite map_get_set.
  destruct (Nat.eqb j k); [|tauto].
  split; [intros [t [E H]]; congruence | intros H; eauto].
Qed.

(** The shape of the manager's bookkeeping: unique ids, [activeTransfers]
    is exactly the set of ids of [active] records, and ids are fresh. *)
Record core_inv (s : TM) : Prop := {
  ci_keys : NoDup (map fst (transfers s));
  ci_active : forall k, In k (activeTransfers s) <-> active_key (transfers s) k;
  ci_nodup : NoDup (activeTransfers s);
  ci_fresh : forall k, In k (map fst (transfers s)) -> k < next_id s
}.

Lemma count_active_eq (s : TM) :
  core_inv s -> count_status Active s = length (activeTransfers s).
Proof.
  intros [Hk Ha Hn _].
  set (p := fun kv : nat * transfer => status_eqb (status (snd kv)) Active).
  set (L := map fst (filter p (transfers s))).
  assert (HL : count_status Active s = length L).
  { unfold L, count_status. now rewrite length_map. }
  assert (HnL : NoDup L) by (apply NoDup_map_filter; auto).
  assert (H1 : incl L (activeTransfers s)).
  { intros k Hin. apply in_map_iff in Hin as [[k' t] [Hk' Hin]]. simpl in Hk'. subst k'.
    apply filter_In in Hin as [Hin Hp]. unfold p in Hp. simpl in Hp.
    apply Ha. exists t. split; [now apply In_map_get | now apply status_eqb_true]. }
  assert (H2 : incl (activeTransfers s) L).
  { intros k Hin. apply Ha in Hin as [t [Hg Ht]].
    apply (in_map fst (filter p (transfers s)) (k, t)).
    apply filter_In. split; [now apply map_get_In|].
    unfold p. simpl. rewrite Ht. reflexivity. }
  rewrite HL. apply Nat.le_antisymm; apply NoDup_incl_length; auto.
Qed.

Lemma core_inv_admit (src dst : server) (now : nat) (s : TM) (tid : nat) (t : transfer) :
  core_inv s -> map_get tid (transfers s) = Some t -> status t = Queued ->
  let s' := startTransfer tid src dst now (with_active (set_add tid (activeTransfers s)) s) in
  core_inv s' /\ length (activeTransfers s') = S (length (activeTransfers s)) /\
  maxConcurrent s' = maxConcurrent s.
Proof.
  intros [Hk Ha Hn Hf] Hg Hq s'.
  assert (Hnot : ~ In tid (activeTransfers s)).
  { intros Hin. apply Ha in Hin as [t' [Hg' Ht']]. congruence. }
  assert (Hkeys : In tid (map fst (transfers s))) by (eapply map_get_in_keys; eauto).
  unfold s', startTransfer. simpl. rewrite Hg.
  unfold with_running, with_transfers, with_active. simpl.
  rewrite (set_add_fresh _ _ Hnot).
  split; [constructor; simpl|split; simpl].
  - rewrite keys_set_in; auto.
  - intros j. rewrite in_app_iff, active_key_set. simpl.
    destruct (Nat.eqb j tid) eqn:E.
    + apply Nat.eqb_eq in E. subst. split; auto.
    + apply Nat.eqb_neq in E. rewrite <- Ha. split; [intros [H|[H|[]]]; auto; congruence | auto].
  - apply NoDup_app; auto.
    + constructor; auto. constructor.
    + intros a Ha1 [Ha2|[]]. subst. contradiction.
  - intros j. rewrite keys_set_in by auto. apply Hf.
  - rewrite length_app. simpl. lia.
  - reflexivity.
Qed.

Lemma core_inv_create (src dst : server) (now : nat) (s : TM) (f : file) :
  core_inv s ->
  core_inv (MkTM (map_set (next_id s) (new_transfer (next_id s) src dst f now) (transfers s))
              (app (queue s) [next_id s]) (activeTransfers s) (maxConcurrent s)
              (S (next_id s)) (running s)).
Proof.
  intros [Hk Ha Hn Hf].
  assert (Hnot : ~ In (next_id s) (map fst (transfers s))).
  { intros H. specialize (Hf _ H). lia. }
  constructor; simpl.
  - rewrite keys_set_notin by auto. apply NoDup_app; auto.
    + constructor; auto. constructor.
    + intros a Ha1 [<-|[]]. contradiction.
  - intros j. rewrite active_key_set. destruct (Nat.eqb j (next_id s)) eqn:E.
    + apply Nat.eqb_eq in E. subst j. simpl. split; [|discriminate].
      intros Hin. apply Ha in Hin as [t [Hg _]]. apply map_get_in_keys in Hg. contradiction.
    + apply Ha.
  - exact Hn.
  - intros j. rewrite keys_set_notin by auto. rewrite in_app_iff.
    intros [H|[<-|[]]]; [specialize (Hf _ H); lia | lia].
Qed.

(** Marking record [k] with a non-[active] status and dropping it from
    [activeTransfers]. *)
Lemma core_inv_retire (s : TM) (k : nat) (f : transfer -> transfer) :
  core_inv s -> (forall t, status (f t) <> Active) ->
  core_inv (with_active (set_delete k (activeTransfers s))
              (with_transfers (map_update k f (transfers s)) s)).
Proof.
  intros [Hk Ha Hn Hf] Hfa. constructor; simpl.
  - now rewrite keys_update.
  - intros j. rewrite In_set_delete. unfold active_key. rewrite map_get_update.
    destruct (Nat.eqb j k) eqn:E.
    + apply Nat.eqb_eq in E. subst. split; [tauto|].
      intros [t [Hg Ht]]. destruct (map_get k (transfers s)); simpl in Hg; [|discriminate].
      injection Hg as <-. exfalso. exact (Hfa _ Ht).
    + apply Nat.eqb_neq in E. rewrite (Ha j). unfold active_key. tauto.
  - unfold set_delete. now apply NoDup_filter.
  - intros j. rewrite keys_update. apply Hf.
Qed.

(** Updating record [k] without touching its status. *)
Lemma core_inv_touch (s : TM) (k : nat) (f : transfer -> transfer) :
  core_inv s -> (forall t, status (f t) = status t) ->
  core_inv (with_transfers (map_update k f (transfers s)) s).
Proof.
  intros [Hk Ha Hn Hf] Hfs. constructor; simpl.
  - now rewrite keys_update.
  - intros j. rewrite (Ha j). unfold active_key. rewrite map_get_update.
    destruct (Nat.eqb j k) eqn:E; [|tauto].
    apply Nat.eqb_eq in E. subst.
    destruct (map_get k (transfers s)) as [t|]; simpl.
    + split; intros [t' [Hg Ht]]; injection Hg as <-; eexists; split; try reflexivity;
        rewrite ?Hfs in *; auto.
    + split; intros [t' [Hg Ht]]; discriminate.
  - exact Hn.
  - intros j. rewrite keys_update. apply Hf.
Qed.

(** Setting an existing, non-active record [k] to a non-[active] value. *)
Lemma core_inv_set_inactive (s : TM) (k : nat) (v : transfer) :
  core_inv s -> In k (map fst (transfers s)) -> ~ In k (activeTransfers s) ->
  status v <> Active ->
  core_inv (with_transfers (map_set k v (transfers s)) s).
Proof.
  intros [Hk Ha Hn Hf] Hin Hnot Hv. constructor; simpl.
  - now rewrite keys_set_in.
  - intros j. rewrite active_key_set. destruct (Nat.eqb j k) eqn:E.
    + apply Nat.eqb_eq in E. subst. tauto.
    + apply Ha.
  - exact Hn.
  - intros j. rewrite keys_set_in by auto. apply Hf.
Qed.

Lemma core_inv_queue (s : TM) (q : list nat) : core_inv s -> core_inv (with_queue q s).
Proof. intros [Hk Ha Hn Hf]. now constructor. Qed.

Lemma core_inv_running (s : TM) (r : list launch) :
  core_inv s -> core_inv (with_running r s).
Proof. intros [Hk Ha Hn Hf]. now constructor. Qed.

Lemma core_inv_setmax (s : TM) (m : nat) : core_inv s -> core_inv (setMaxConcurrent m s).
Proof. intros [Hk Ha Hn Hf]. now constructor. Qed.

Lemma map_get_delete_many (ks : list nat) :
  forall (m : tmap) (j : nat),
  map_get j (fold_left (fun m k => map_delete k m) ks m)
  = if existsb (Nat.eqb j) ks then None else map_get j m.
Proof.
  induction ks as [|k ks IH]; intros m j; simpl; auto.
  rewrite IH, map_get_delete.
  destruct (Nat.eqb j k), (existsb (Nat.eqb j) ks); auto.
Qed.

Lemma keys_delete_many (ks : list nat) :
  forall m : tmap, NoDup (map fst m) ->
  NoDup (map fst (fold_left (fun m k => map_delete k m) ks m)) /\
  (forall j, In j (map fst (fold_left (fun m k => map_delete k m) ks m)) ->
             In j (map fst m)).
Proof.
  induction ks as [|k ks IH]; intros m Hm; simpl; [split; auto|].
  destruct (IH (map_delete k m)) as [H1 H2].
  - unfold map_delete. now apply NoDup_map_filter.
  - split; auto. intros j Hj. apply H2 in Hj. unfold map_delete in Hj.
    eapply keys_filter_incl; eauto.
Qed.

Lemma core_inv_clear (maxAge now : nat) (s : TM) :
  core_inv s -> core_inv (clearOldTransfers maxAge now s).
Proof.
  intros [Hk Ha Hn Hf]. unfold clearOldTransfers.
  set (p := fun kv : nat * transfer =>
              is_terminal (status (snd kv)) && old_enough maxAge now (snd kv)).
  set (ks := map fst (filter p (transfers s))).
  destruct (keys_delete_many ks (transfers s) Hk) as [Hk' Hsub].
  constructor; simpl.
  - exact Hk'.
  - intros j. unfold active_key. rewrite map_get_delete_many.
    destruct (existsb (Nat.eqb j) ks) eqn:E.
    + split; [|intros [t [H _]]; discriminate].
      intros Hin. apply Ha in Hin as [t [Hg Ht]]. exfalso.
      apply existsb_exists in E as [x [Hx Ex]]. apply Nat.eqb_eq in Ex. subst x.
      unfold ks in Hx. apply in_map_iff in Hx as [[j' t'] [Hj Hin]]. simpl in Hj. subst j'.
      apply filter_In in Hin as [Hin Hp]. unfold p in Hp. simpl in Hp.
      rewrite (In_map_get _ _ _ Hk Hin) in Hg. injection Hg as Heq. subst t'.
      rewrite Ht in Hp. unfold is_terminal in Hp. simpl in Hp. discriminate.
    + apply Ha.
  - exact Hn.
  - intros j Hj. apply Hf, Hsub, Hj.
Qed.

(** What one operation does to the bookkeeping and to the number of
    active transfers, relative to the state [s0] it started from. *)
Definition bounded_after (s0 s : TM) : Prop :=
  core_inv s /\
  length (activeTransfers s) <= Nat.max (length (activeTransfers s0)) (maxConcurrent s0) /\
  maxConcurrent s = maxConcurrent s0.

Lemma bounded_after_weaken (s0 x y : TM) :
  bounded_after x y -> length (activeTransfers x) <= length (activeTransfers s0) ->
  maxConcurrent x = maxConcurrent s0 -> bounded_after s0 y.
Proof.
  intros [H1 [H2 H3]] Hl Hm. split; auto. split; [|congruence]. lia.
Qed.

Lemma processQueue_bounded (src dst : server) (now : nat) (s : TM) :
  core_inv s -> bounded_after s (processQueue src dst now s).
Proof.
  intros Hs.
  set (L0 := length (activeTransfers s)). set (M0 := maxConcurrent s).
  apply (processQueue_inv
           (fun x => core_inv x /\ length (activeTransfers x) <= Nat.max L0 M0 /\
                     maxConcurrent x = M0)).
  - intros x q [H1 [H2 H3]]. split; [now apply core_inv_queue | simpl; auto].
  - intros x tid t [H1 [H2 H3]] Hg Hq Hlt.
    destruct (core_inv_admit src dst now x tid t H1 Hg Hq) as [G1 [G2 G3]].
    split; [exact G1|]. split; [rewrite G2; lia | rewrite G3; auto].
  - split; [exact Hs | split; [lia | reflexivity]].
Qed.

Lemma bounded_after_refl (s : TM) : core_inv s -> bounded_after s s.
Proof. intros Hs. split; [exact Hs | split; [lia | reflexivity]]. Qed.

Lemma step_bounded (s : TM) (e : event) :
  core_inv s -> (forall m, e <> EvSetMax m) -> bounded_after s (step s e).
Proof.
  intros Hs Hne.
  destruct e as [src dst files now|n p|n o now|tid now|m|maxAge now];
    unfold step; cbv beta iota zeta.
  - (* createTransfers *)
    unfold createTransfers.
    assert (Hc : forall acc,
              let x := fst (create_loop src dst now files s acc) in
              core_inv x /\ activeTransfers x = activeTransfers s /\
              maxConcurrent x = maxConcurrent s).
    { intros acc.
      apply (create_loop_inv
               (fun x => core_inv x /\ activeTransfers x = activeTransfers s /\
                         maxConcurrent x = maxConcurrent s)).
      - intros x f [H1 [H2 H3]]. split; [now apply core_inv_create | simpl; auto].
      - auto. }
    destruct (Hc []) as [H1 [H2 H3]].
    destruct (create_loop src dst now files s []) as [x ids]. simpl in *.
    apply (bounded_after_weaken s x);
      [now apply processQueue_bounded | rewrite H2; lia | exact H3].
  - (* progressCallback *)
    unfold progressCallback. destruct (nth_error (running s) n) as [l|];
      [|now apply bounded_after_refl].
    split; [apply core_inv_touch; auto | simpl; split; [lia | reflexivity]].
  - (* the settlement of an rsync *)
    unfold finishTransfer. destruct (nth_error (running s) n) as [l|];
      [|now apply bounded_after_refl].
    cbv zeta.
    match goal with |- bounded_after s (processQueue _ _ _ ?X) =>
      apply (bounded_after_weaken s X) end.
    + apply processQueue_bounded.
      apply (core_inv_retire (with_running (remove_nth n (running s)) s) (l_id l)).
      * now apply core_inv_running.
      * intros t. destruct o; simpl; discriminate.
    + simpl. apply length_set_delete.
    + reflexivity.
  - (* cancelTransfer *)
    unfold cancelTransfer.
    destruct (map_get tid (transfers s)) as [t|] eqn:Eg; [|now apply bounded_after_refl].
    assert (Hkeys : In tid (map fst (transfers s))) by (eapply map_get_in_keys; eauto).
    destruct (status_eqb (status t) Queued) eqn:Eq.
    + apply status_eqb_true in Eq. simpl.
      split; [|simpl; split; [lia | reflexivity]].
      apply (core_inv_set_inactive (with_queue (remove_first tid (queue s)) s) tid).
      * now apply core_inv_queue.
      * exact Hkeys.
      * simpl. intros Hin. apply (ci_active s Hs) in Hin as [t' [Hg' Ht']]. congruence.
      * simpl. discriminate.
    + destruct (status_eqb (status t) Active) eqn:Ea; [|now apply bounded_after_refl].
      simpl. split; [|simpl; split; [apply (Nat.le_trans _ _ _ (length_set_delete tid _)); lia
                                       | reflexivity]].
      assert (Hu : map_set tid (with_completedAt now (with_status Cancelled t)) (transfers s)
                   = map_update tid (fun _ => with_completedAt now (with_status Cancelled t))
                       (transfers s)) by (unfold map_update; now rewrite Eg).
      pose proof (core_inv_retire s tid (fun _ => with_completedAt now (with_status Cancelled t))
                    Hs ltac:(intros t0; simpl; discriminate)) as H.
      rewrite <- Hu in H. exact H.
  - (* setMaxConcurrent *)
    exfalso. exact (Hne m eq_refl).
  - (* clearOldTransfers *)
    split; [now apply core_inv_clear | simpl; split; [lia | reflexivity]].
Qed.

Lemma core_inv_init : core_inv init.
Proof.
  constructor; simpl.
  - constructor.
  - intros k. unfold active_key. simpl. split; [contradiction|intros [t [H _]]; discriminate].
  - constructor.
  - contradiction.
Qed.

Lemma core_inv_step (s : TM) (e : event) : core_inv s -> core_inv (step s e).
Proof.
  intros Hs. destruct e as [a b c d|a b|a b c|a b|m|a b];
    try (apply step_bounded; [exact Hs | intros m; discriminate]).
  now apply core_inv_setmax.
Qed.

Lemma reachable_core_inv (s : TM) : reachable s -> core_inv s.
Proof.
  induction 1; [exact core_inv_init | now apply core_inv_step].
Qed.

(** C3 (as the code behaves): [createTransfers] returns one distinct id per
    file; from a reachable state none of them names a record that existed
    before the call; and when it returns each id resolves to a record that
    is [queued] or, when the admission pass run inside the call took it,
    [active]. *)
Theorem createTransfers_ids_queued_or_active (src dst : server) (files : list file)
    (now : nat) (s : TM) :
  let r := createTransfers src dst files now s in
  length (snd r) = length files /\ NoDup (snd r) /\ queued_or_active (snd r) (fst r) /\
  (reachable s -> forall k, In k (snd r) -> getTransfer k s = None).
Proof.
  intros r. unfold r, createTransfers.
  destruct (create_loop_spec src dst now files s []) as [H1 [_ [_ H4]]].
  destruct (create_loop src dst now files s []) as [s1 ids] eqn:E. simpl in *.
  subst ids. repeat split.
  - apply length_seq.
  - apply seq_NoDup.
  - apply processQueue_inv.
    + intros s2 q Hs2. exact Hs2.
    + intros s2 tid t Hs2 Hg _ _ k Hk. unfold startTransfer. simpl. rewrite Hg.
      unfold getTransfer. simpl. rewrite map_get_set.
      destruct (Nat.eqb k tid); [eexists; split; [reflexivity|]; simpl; auto|].
      apply Hs2. exact Hk.
    + intros k Hk. apply in_seq in Hk. destruct (H4 k Hk) as [t [Hg Hst]].
      exists t. split; auto.
  - intros Hr k Hk. apply in_seq in Hk.
    pose proof (ci_fresh s (reachable_core_inv s Hr) k) as Hf.
    unfold getTransfer. destruct (map_get k (transfers s)) as [t|] eqn:Hg; [|reflexivity].
    apply map_get_In in Hg. apply (in_map fst) in Hg. simpl in Hg.
    specialize (Hf Hg). lia.
Qed.


(** A call [setMaxConcurrent(m)] that does not lower the bound below the
    number of transfers active at that moment; every other operation. *)
Definition keeps_bound (s : TM) (e : event) : Prop :=
  match e with
  | EvSetMax m => count_status Active s <= m
  | _ => True
  end.

Lemma is_setmax_dec (e : event) :
  {m | e = EvSetMax m} + {forall m, e <> EvSetMax m}.
Proof.
  destruct e; try (right; intros m'; discriminate). left; eauto.
Qed.

Inductive reachable_within_bound : TM -> Prop :=
| rwb_init : reachable_within_bound init
| rwb_step s e :
    reachable_within_bound s -> keeps_bound s e -> reachable_within_bound (step s e).

Lemma reachable_within_bound_inv (s : TM) :
  reachable_within_bound s ->
  core_inv s /\ length (activeTransfers s) <= maxConcurrent s.
Proof.
  induction 1 as [|s e Hr [Hc Hl] Hk].
  - split; [exact core_inv_init | simpl; lia].
  - destruct (is_setmax_dec e) as [[m ->]|Hne].
    + change (count_status Active s <= m) in Hk. rewrite (count_active_eq s Hc) in Hk.
      split; [now apply core_inv_setmax | simpl; exact Hk].
    + destruct (step_bounded s e Hc Hne) as [G1 [G2 G3]].
      split; [exact G1 | rewrite G3, <- (Nat.max_r _ _ Hl); exact G2].
Qed.

(** C1 (as the code behaves): the number of [active] records is at most
    [maxConcurrent] in every state reached by operations in which
    [setMaxConcurrent] never sets the bound below the number of transfers
    active at that moment; and in every reachable state, every operation
    other than [setMaxConcurrent] leaves that number at most the larger of
    its previous value and the bound, so after a lowering the excess active
    transfers keep running and, while the number is at or above the bound,
    no operation makes it grow. *)
Theorem active_count_within_bound :
  (forall s, reachable_within_bound s -> count_status Active s <= maxConcurrent s) /\
  (forall s e, reachable s -> (forall m, e <> EvSetMax m) ->
     count_status Active (step s e) <= Nat.max (count_status Active s) (maxConcurrent s)).
Proof.
  split.
  - intros s Hr. destruct (reachable_within_bound_inv s Hr) as [Hc Hl].
    now rewrite (count_active_eq s Hc).
  - intros s e Hr Hne. pose proof (reachable_core_inv s Hr) as Hc.
    destruct (step_bounded s e Hc Hne) as [G1 [G2 G3]].
    now rewrite (count_active_eq s Hc), (count_active_eq _ G1).
Qed.

(** * Instances of the claim theorems on concrete inputs *)

Definition demo_runA : list event :=
  [EvCreate srvA1 srvA2 batchA 1; EvFinish 0 Success 2; EvCancel 1 3].

Lemma active_count_within_bound_witness :
  count_status Active (step init (EvCreate srvA1 srvA2 batchA 1))
    <= maxConcurrent (step init (EvCreate srvA1 srvA2 batchA 1)) /\
  count_status Active (run init demo_runA) <= 3.
Proof.
  split.
  - apply (proj1 active_count_within_bound).
    apply rwb_step; [exact rwb_init | exact I].
  - assert (H : Nat.max (count_status Active (run init (removelast demo_runA)))
                        (maxConcurrent (run init (removelast demo_runA))) = 3)
      by (vm_compute; reflexivity).
    rewrite <- H.
    change (run init demo_runA) with (step (run init (removelast demo_runA)) (EvCancel 1 3)).
    apply (proj2 active_count_within_bound).
    + apply reachable_run. exact reach_init.
    + intros m; discriminate.
Defined.

Lemma createTransfers_ids_queued_or_active_witness :
  let s0 := run init [EvCreate srvA1 srvA2 batchA 1] in
  let r := createTransfers srvA1 srvA2 [mk_file "/a/movies/4.mkv"] 5 s0 in
  snd r = [3] /\ NoDup (snd r) /\ queued_or_active (snd r) (fst r) /\
  getTransfer 3 s0 = None /\ option_map status (getTransfer 3 (fst r)) = Some Queued.
Proof.
  intros s0 r.
  assert (Hr : reachable s0) by (apply reachable_run; exact reach_init).
  destruct (createTransfers_ids_queued_or_active srvA1 srvA2 [mk_file "/a/movies/4.mkv"] 5 s0)
    as [_ [H2 [H3 H4]]].
  split; [vm_compute; reflexivity|].
  split; [exact H2|]. split; [exact H3|]. split.
  - apply (H4 Hr). vm_compute. left. reflexivity.
  - vm_compute. reflexivity.
Defined.

Lemma buildDestPath_base_order_witness :
  PathMapper.source_match "/a/movies/X/f.mkv" PathMapper.ex_src = ("X/f.mkv", PathMapper.MTmovies) /\
  PathMapper.buildDestPath "/a/movies/X/f.mkv" PathMapper.ex_src PathMapper.ex_dst
    = PathMapper.collapse_slashes
        (String.append (render (PathMapper.dest_base_path PathMapper.MTmovies PathMapper.ex_dst))
                       (String.append "/" "X/f.mkv")).
Proof.
  assert (Hm : PathMapper.source_match "/a/movies/X/f.mkv" PathMapper.ex_src
               = ("X/f.mkv", PathMapper.MTmovies)) by (vm_compute; reflexivity).
  split; [exact Hm |].
  exact (proj1 (buildDestPath_base_order "/a/movies/X/f.mkv" "X/f.mkv"
                  PathMapper.ex_src PathMapper.ex_dst PathMapper.MTmovies Hm)).
Defined.

Definition sample_progress : progressInfo :=
  ProgressInfo (Fin 45) (Fin 1234567) (Some "1.23MB/s") (Some "0:00:12").

Lemma rsync_progress_sample_and_dedup_witness :
  parse_progress sample_chunk = Some sample_progress /\
  snd (feed stream_init [sample_chunk; sample_chunk]) = [sample_progress].
Proof.
  assert (Hp : parse_progress sample_chunk = Some sample_progress) by (vm_compute; reflexivity).
  split; [exact Hp |].
  exact (proj2 (proj2 (rsync_progress_sample_and_dedup stream_init sample_chunk sample_chunk
                         sample_progress sample_progress 45 Hp Hp eq_refl eq_refl))).
Defined.

Definition demo_state : TM :=
  fst (createTransfers srvA1 srvA2 [mk_file "/a/movies/m.mkv"] 0 init).

Lemma cancelTransfer_true_then_false_witness :
  fst (cancelTransfer 0 5 demo_state) = Some true /\
  fst (cancelTransfer 0 6 (snd (cancelTransfer 0 5 demo_state))) = Some false.
Proof.
  destruct (getTransfer 0 demo_state) as [t|] eqn:Ht; [|vm_compute in Ht; discriminate].
  apply ((proj2 cancelTransfer_true_then_false) demo_state 0 5 6 t Ht).
  right. vm_compute in Ht. injection Ht as <-. reflexivity.
Defined.

Definition demo_request : request :=
  Request (Some "a1") (Some "a1") (Some [mk_file "/a/movies/m.mkv"]).

Lemma post_transfers_rejects_malformed_witness :
  (fst (post_transfers [srvA1; srvA2] demo_request 0 init) = 400 \/
   fst (post_transfers [srvA1; srvA2] demo_request 0 init) = 404) /\
  snd (post_transfers [srvA1; srvA2] demo_request 0 init) = init.
Proof.
  apply post_transfers_rejects_malformed.
  right; left; reflexivity.
Defined.

Lemma statistics_skipped_zero_witness :
  st_skipped (getStatistics (run init demo_runA)) = 0.
Proof.
  apply statistics_skipped_zero. apply reachable_run. exact reach_init.
Defined.

(* ------------------------------------------------------------------ *)
(** * Further properties of the code *)

Import Queries FilesRoutes ShellQuote JsNumber FileInfo SshPool.

(** ** [getAllTransfers] and [GET /api/transfers] *)

(** A filter value [v] lets a field value [x] through. *)
Definition param_ok (v : jsstr) (x : string) : bool :=
  negb (truthy v) || String.eqb x (render v).

(** A record matches every truthy parameter of the query [q]. *)
Definition query_admits (q : query) (t : transfer) : bool :=
  param_ok (query_status q) (status_name (status t))
  && (param_ok (query_sourceServerId q) (sourceServerId t)
      && param_ok (query_destServerId q) (destServerId t)).

Lemma filter_by_param_ok (v : jsstr) (field : transfer -> string) (ts : list transfer) :
  filter_by v field ts = filter (fun t => param_ok v (field t)) ts.
Proof.
  unfold filter_by, param_ok. destruct (truthy v); simpl; [reflexivity|].
  symmetry. apply filter_true.
Qed.

Lemma param_ok_pick (v : jsstr) (x : string) :
  param_ok (if truthy v then v else None) x = param_ok v x.
Proof.
  unfold param_ok. destruct (truthy v) eqn:E; simpl; now rewrite ?E.
Qed.

Lemma filter_filter_and {A} (p q : A -> bool) (l : list A) :
  filter p (filter q l) = filter (fun x => q x && p x) l.
Proof.
  induction l as [|x l IH]; simpl; [reflexivity|].
  destruct (q x); simpl; [destruct (p x)|]; simpl; rewrite ?IH; reflexivity.
Qed.

Lemma insert_by_createdAt_perm (t : transfer) (l : list transfer) :
  Permutation (insert_by_createdAt t l) (t :: l).
Proof.
  induction l as [|x l IH]; simpl; [auto|].
  destruct (Nat.ltb (createdAt x) (createdAt t)); [auto|].
  eapply perm_trans; [apply perm_skip, IH | apply perm_swap].
Qed.

Lemma sort_fold_perm (l : list transfer) :
  forall acc, Permutation (fold_left (fun acc t => insert_by_createdAt t acc) l acc)
                          (app l acc).
Proof.
  induction l as [|x l IH]; intros acc; simpl; [auto|].
  eapply perm_trans; [apply IH|].
  eapply perm_trans; [apply Permutation_app_head, insert_by_createdAt_perm|].
  apply Permutation_sym, Permutation_middle.
Qed.

Lemma sort_by_createdAt_perm (l : list transfer) :
  Permutation (sort_by_createdAt l) l.
Proof.
  unfold sort_by_createdAt. rewrite <- (app_nil_r l) at 2. apply sort_fold_perm.
Qed.

Lemma getAllTransfers_perm (fl : filters) (s : TM) :
  Permutation (getAllTransfers fl s)
    (filter (fun t => param_ok (filter_status fl) (status_name (status t))
                      && (param_ok (filter_sourceServerId fl) (sourceServerId t)
                          && param_ok (filter_destServerId fl) (destServerId t)))
       (map snd (transfers s))).
Proof.
  unfold getAllTransfers. rewrite !filter_by_param_ok, !filter_filter_and.
  apply sort_by_createdAt_perm.
Qed.

(** X1: [GET /api/transfers] lists exactly the records of the manager that
    match every truthy query parameter ([status] by its string value, the
    two server ids by equality), each as often as it occurs in the map, and
    its [count] is the number of records listed. *)
Theorem get_transfers_lists_matching (q : query) (s : TM) :
  Permutation (fst (get_transfers q s)) (filter (query_admits q) (map snd (transfers s))) /\
  (forall t, In t (fst (get_transfers q s)) <->
             In t (map snd (transfers s)) /\ query_admits q t = true) /\
  snd (get_transfers q s) = length (fst (get_transfers q s)).
Proof.
  assert (HP : Permutation (fst (get_transfers q s))
                 (filter (query_admits q) (map snd (transfers s)))).
  { unfold get_transfers; simpl.
    eapply perm_trans; [apply getAllTransfers_perm|]. simpl.
    rewrite (filter_ext _ (query_admits q)); [apply Permutation_refl|].
    intros t. unfold query_admits. now rewrite !param_ok_pick. }
  split; [exact HP|]. split; [|reflexivity].
  intros t. rewrite <- filter_In. split; apply Permutation_in; [exact HP|].
  now apply Permutation_sym.
Qed.

(** Newest first: [a] may precede [b] when [b] is not newer. *)
Definition newer_first (a b : transfer) : Prop := createdAt b <= createdAt a.

Lemma insert_sorted (t : transfer) (l : list transfer) :
  StronglySorted newer_first l -> StronglySorted newer_first (insert_by_createdAt t l).
Proof.
  induction l as [|x l IH]; simpl; intros Hs.
  - constructor; constructor.
  - inversion Hs as [|? ? Hl Hx]; subst.
    destruct (Nat.ltb (createdAt x) (createdAt t)) eqn:E.
    + apply Nat.ltb_lt in E. constructor; [exact Hs|].
      constructor; [unfold newer_first; lia|].
      eapply Forall_impl; [|exact Hx]. unfold newer_first; intros a Ha; lia.
    + apply Nat.ltb_ge in E. constructor; [now apply IH|].
      apply Forall_forall. intros a Ha.
      apply (Permutation_in _ (insert_by_createdAt_perm t l)) in Ha.
      destruct Ha as [<-|Ha]; [unfold newer_first; lia|].
      rewrite Forall_forall in Hx. now apply Hx.
Qed.

Lemma filter_none {A} (p : A -> bool) (l : list A) :
  (forall y, In y l -> p y = false) -> filter p l = [].
Proof.
  induction l as [|x l IH]; simpl; intros H; [reflexivity|].
  rewrite (H x (or_introl eq_refl)). apply IH. intros y Hy. apply H. now right.
Qed.

Lemma filter_insert (c : nat) (t : transfer) (l : list transfer) :
  StronglySorted newer_first l ->
  filter (fun x => Nat.eqb (createdAt x) c) (insert_by_createdAt t l)
  = app (filter (fun x => Nat.eqb (createdAt x) c) l)
        (if Nat.eqb (createdAt t) c then [t] else []).
Proof.
  induction l as [|x l IH]; simpl; intros Hs.
  - destruct (Nat.eqb (createdAt t) c); reflexivity.
  - inversion Hs as [|? ? Hl Hx]; subst.
    destruct (Nat.ltb (createdAt x) (createdAt t)) eqn:E.
    + apply Nat.ltb_lt in E. simpl.
      destruct (Nat.eqb (createdAt t) c) eqn:Et.
      * apply Nat.eqb_eq in Et. subst c.
        assert (Hnone : filter (fun y => Nat.eqb (createdAt y) (createdAt t)) (x :: l) = []).
        { apply filter_none; intros y Hy. apply Nat.eqb_neq.
          destruct Hy as [<-|Hy]; [lia|].
          rewrite Forall_forall in Hx. specialize (Hx y Hy). unfold newer_first in Hx. lia. }
        simpl in Hnone. rewrite Hnone. reflexivity.
      * now rewrite app_nil_r.
    + simpl. rewrite (IH Hl). destruct (Nat.eqb (createdAt x) c); reflexivity.
Qed.

Lemma filter_sort_fold (c : nat) (l : list transfer) :
  forall acc, StronglySorted newer_first acc ->
  StronglySorted newer_first (fold_left (fun acc t => insert_by_createdAt t acc) l acc) /\
  filter (fun x => Nat.eqb (createdAt x) c) (fold_left (fun acc t => insert_by_createdAt t acc) l acc)
  = app (filter (fun x => Nat.eqb (createdAt x) c) acc) (filter (fun x => Nat.eqb (createdAt x) c) l).
Proof.
  induction l as [|x l IH]; intros acc Hs; simpl.
  - split; [exact Hs | now rewrite app_nil_r].
  - destruct (IH (insert_by_createdAt x acc) (insert_sorted x acc Hs)) as [H1 H2].
    split; [exact H1|]. rewrite H2, (filter_insert c x acc Hs), <- app_assoc.
    destruct (Nat.eqb (createdAt x) c); reflexivity.
Qed.

(** X2: [getAllTransfers] returns the records newest first, and records with
    the same [createdAt] (for instance the files of one batch) keep the
    order of the map, which is the order they were created in. *)
Theorem getAllTransfers_newest_first_stable (fl : filters) (s : TM) :
  StronglySorted newer_first (getAllTransfers fl s) /\
  forall c,
    filter (fun x => Nat.eqb (createdAt x) c) (getAllTransfers fl s)
    = filter (fun x => Nat.eqb (createdAt x) c)
        (filter (fun t => param_ok (filter_status fl) (status_name (status t))
                          && (param_ok (filter_sourceServerId fl) (sourceServerId t)
                              && param_ok (filter_destServerId fl) (destServerId t)))
           (map snd (transfers s))).
Proof.
  unfold getAllTransfers. rewrite !filter_by_param_ok, !filter_filter_and.
  unfold sort_by_createdAt.
  split.
  - apply (filter_sort_fold 0 _ [] (SSorted_nil _)).
  - intros c. apply (filter_sort_fold c _ [] (SSorted_nil _)).
Qed.

(** ** [getStatistics] *)

(** X3: the six status counts of [getStatistics] add up to [total]: every
    record is counted under exactly one status. *)
Theorem getStatistics_partition (s : TM) :
  st_total (getStatistics s)
  = st_queued (getStatistics s) + st_active (getStatistics s)
    + st_completed (getStatistics s) + st_failed (getStatistics s)
    + st_cancelled (getStatistics s) + st_skipped (getStatistics s).
Proof.
  unfold getStatistics, count_status; simpl.
  induction (transfers s) as [|[k t] m IH]; simpl; [reflexivity|].
  destruct (status t); simpl; lia.
Qed.

(** ** [clearOldTransfers] *)

Lemma existsb_eqb_In (k : nat) (l : list nat) :
  existsb (Nat.eqb k) l = true <-> In k l.
Proof.
  rewrite existsb_exists. split.
  - intros [x [Hx E]]. apply Nat.eqb_eq in E. now subst.
  - intros H. exists k. split; [exact H | apply Nat.eqb_refl].
Qed.

Lemma In_delete_many (ks : list nat) :
  forall (m : tmap) (kv : nat * transfer),
  In kv (fold_left (fun m k => map_delete k m) ks m) <-> In kv m /\ ~ In (fst kv) ks.
Proof.
  induction ks as [|k ks IH]; intros m kv; simpl.
  - tauto.
  - rewrite IH. unfold map_delete. rewrite filter_In, negb_true_iff, Nat.eqb_neq.
    intuition.
Qed.

(** The records [clearOldTransfers(maxAge)] at time [now] selects. *)
Definition clear_selects (maxAge now : nat) (t : transfer) : bool :=
  is_terminal (status t) && old_enough maxAge now t.

(** X4: in every reachable state, [clearOldTransfers(maxAge)] at time [now]
    removes exactly the records that are terminal (completed, failed,
    cancelled or skipped) with a truthy [completedAt] more than [maxAge]
    before [now]; every other record, in particular every queued or active
    one, stays as it is. *)
Theorem clearOldTransfers_lookup (maxAge now : nat) (s : TM) (Hr : reachable s) (k : nat) :
  getTransfer k (clearOldTransfers maxAge now s) =
  match getTransfer k s with
  | Some t => if clear_selects maxAge now t then None else Some t
  | None => None
  end.
Proof.
  pose proof (ci_keys s (reachable_core_inv s Hr)) as Hnd.
  unfold getTransfer, clearOldTransfers, clear_selects; simpl.
  rewrite map_get_delete_many.
  destruct (map_get k (transfers s)) as [t|] eqn:Ek.
  - destruct (is_terminal (status t) && old_enough maxAge now t) eqn:Ep.
    + replace (existsb _ _) with true; [reflexivity|]. symmetry.
      apply existsb_eqb_In. apply in_map_iff. exists (k, t). split; [reflexivity|].
      apply filter_In. split; [now apply map_get_In | exact Ep].
    + destruct (existsb _ _) eqn:Ex; [|reflexivity].
      apply existsb_eqb_In, in_map_iff in Ex as [[k' t'] [Hk Hin]]. simpl in Hk. subst k'.
      apply filter_In in Hin as [Hin Hp]. simpl in Hp.
      rewrite (In_map_get k t' _ Hnd Hin) in Ek. injection Ek as ->. congruence.
  - destruct (existsb _ _); reflexivity.
Qed.

(** X5: [clearOldTransfers] touches only the transfer map (the queue, the
    active set, the bound and the running transfers are unchanged), and a
    second call with the same [maxAge] at the same time removes nothing
    more. *)
Theorem clearOldTransfers_idempotent (maxAge now : nat) (s : TM) :
  clearOldTransfers maxAge now (clearOldTransfers maxAge now s)
    = clearOldTransfers maxAge now s /\
  queue (clearOldTransfers maxAge now s) = queue s /\
  activeTransfers (clearOldTransfers maxAge now s) = activeTransfers s /\
  maxConcurrent (clearOldTransfers maxAge now s) = maxConcurrent s /\
  running (clearOldTransfers maxAge now s) = running s.
Proof.
  split; [|repeat split].
  unfold clearOldTransfers at 1. simpl.
  set (sel := fun kv : nat * transfer => is_terminal (status (snd kv)) && old_enough maxAge now (snd kv)).
  set (m' := fold_left (fun m k => map_delete k m) (map fst (filter sel (transfers s))) (transfers s)).
  assert (Hnone : filter sel m' = []).
  { apply filter_none. intros [k t] Hin. unfold m' in Hin.
    apply In_delete_many in Hin as [Hin Hk]. simpl in Hk.
    destruct (sel (k, t)) eqn:Es; [|reflexivity].
    exfalso. apply Hk. apply in_map_iff. exists (k, t). split; [reflexivity|].
    now apply filter_In. }
  unfold clearOldTransfers. fold sel. fold m'. simpl. fold sel. rewrite Hnone. simpl.
  reflexivity.
Qed.

(** ** [DELETE /api/transfers/:id] *)

(** X6: [DELETE /api/transfers/:id] answers 404 and changes nothing when the
    record is missing or its source server is no longer configured; for a
    record in a terminal state it answers 400 and changes nothing; for a
    queued or active record it answers 200 and the record becomes
    [cancelled] with [completedAt] set, its other fields unchanged. *)
Theorem delete_transfer_route (servers : list server) (tid now : nat) (s : TM) :
  (getTransfer tid s = None -> delete_transfer servers tid now s = (404, s)) /\
  (forall t, getTransfer tid s = Some t ->
     (find_server (sourceServerId t) servers = None ->
        delete_transfer servers tid now s = (404, s)) /\
     (find_server (sourceServerId t) servers <> None ->
        (is_terminal (status t) = true -> delete_transfer servers tid now s = (400, s)) /\
        (status t = Queued \/ status t = Active ->
           fst (delete_transfer servers tid now s) = 200 /\
           getTransfer tid (snd (delete_transfer servers tid now s))
             = Some (with_completedAt now (with_status Cancelled t))))).
Proof.
  unfold delete_transfer. split.
  - intros H. now rewrite H.
  - intros t Ht. rewrite Ht. split.
    + intros H. now rewrite H.
    + intros H. destruct (find_server (sourceServerId t) servers) as [sv|]; [|congruence].
      unfold cancelTransfer, getTransfer in *. rewrite Ht.
      revert Ht. destruct (status t) eqn:Est; intros Ht; simpl; split;
        try discriminate; try (intros [E|E]; discriminate);
        try (intros _; reflexivity).
      * intros _. split; [reflexivity|]. simpl. apply map_get_set_eq.
      * intros _. split; [reflexivity|]. simpl. apply map_get_set_eq.
Qed.

(** ** The active set *)

(** X7: in every reachable state, [activeTransfers] holds exactly the ids of
    the records whose status is [active], so [getStatistics().active]
    equals [activeTransfers.size]. *)
Theorem reachable_active_set_exact (s : TM) (Hr : reachable s) :
  (forall k, In k (activeTransfers s) <->
             exists t, getTransfer k s = Some t /\ status t = Active) /\
  st_active (getStatistics s) = length (activeTransfers s).
Proof.
  pose proof (reachable_core_inv s Hr) as Hc. split.
  - intros k. rewrite (ci_active s Hc k). reflexivity.
  - simpl. now apply count_active_eq.
Qed.

Lemma clearOldTransfers_lookup_witness :
  getTransfer 0 (clearOldTransfers 1 10 (run init demo_runA)) = None /\
  getTransfer 2 (clearOldTransfers 1 10 (run init demo_runA))
    = getTransfer 2 (run init demo_runA).
Proof.
  assert (Hr : reachable (run init demo_runA)) by (apply reachable_run; exact reach_init).
  rewrite !(clearOldTransfers_lookup 1 10 _ Hr).
  vm_compute. split; reflexivity.
Defined.

Lemma reachable_active_set_exact_witness :
  st_active (getStatistics (run init demo_runA))
    = length (activeTransfers (run init demo_runA)) /\
  length (activeTransfers (run init demo_runA)) = 1.
Proof.
  split.
  - apply reachable_active_set_exact. apply reachable_run. exact reach_init.
  - vm_compute. reflexivity.
Defined.

(** ** [buildDestPath]: the shape of the result *)

Import PathMapper.

(** No two consecutive characters of [s] are both ['/']. *)
Fixpoint no_double_slash (s : string) : bool :=
  match s with
  | EmptyString => true
  | String c s' =>
      match s' with
      | String d _ => negb (Ascii.eqb c slash && Ascii.eqb d slash)
      | EmptyString => true
      end && no_double_slash s'
  end.

Definition head_not_slash (s : string) : bool :=
  match s with
  | String c _ => negb (Ascii.eqb c slash)
  | EmptyString => true
  end.

Lemma collapse_go_shape (s : string) :
  forall b, no_double_slash (collapse_go b s) = true /\
            (b = true -> head_not_slash (collapse_go b s) = true).
Proof.
  induction s as [|c s IH]; intros b; simpl; [split; reflexivity|].
  destruct (Ascii.eqb c slash) eqn:Ec.
  - destruct b.
    + apply IH.
    + split; [|discriminate].
      destruct (IH true) as [H1 H2]. specialize (H2 eq_refl).
      change (no_double_slash (String c (collapse_go true s))) with
        (match collapse_go true s with
         | String d _ => negb (Ascii.eqb c slash && Ascii.eqb d slash)
         | EmptyString => true
         end && no_double_slash (collapse_go true s)).
      rewrite H1, andb_true_r.
      destruct (collapse_go true s) as [|d r]; [reflexivity|].
      simpl in H2. rewrite Ec. simpl. exact H2.
  - destruct (IH false) as [H1 _]. split.
    + change (no_double_slash (String c (collapse_go false s))) with
        (match collapse_go false s with
         | String d _ => negb (Ascii.eqb c slash && Ascii.eqb d slash)
         | EmptyString => true
         end && no_double_slash (collapse_go false s)).
      rewrite H1, Ec, andb_true_r. destruct (collapse_go false s); reflexivity.
    + intros _. simpl. now rewrite Ec.
Qed.

(** X8: the path [buildDestPath] returns never contains two consecutive
    slashes, whatever the source path and the two servers' media paths. *)
Theorem buildDestPath_no_double_slash (sourcePath : string) (src dst : mediaPaths) :
  no_double_slash (buildDestPath sourcePath src dst) = true.
Proof.
  unfold buildDestPath. destruct (source_match sourcePath src) as [rel mt].
  apply collapse_go_shape.
Qed.

Lemma prefix_app (m r : string) : String.prefix m (m ++ r) = true.
Proof.
  induction m as [|c m IH]; simpl; [now destruct r|].
  destruct (ascii_dec c c); [exact IH | contradiction].
Qed.

Lemma substring_all (r : string) : substring 0 (String.length r) r = r.
Proof.
  induction r as [|c r IH]; simpl; [reflexivity|]. now rewrite IH.
Qed.

Lemma substring_app (m r : string) :
  substring (String.length m) (String.length r) (m ++ r) = r.
Proof.
  induction m as [|c m IH]; simpl; [apply substring_all | exact IH].
Qed.

Lemma length_app (m r : string) :
  String.length (m ++ r) = String.length m + String.length r.
Proof.
  induction m as [|c m IH]; simpl; [reflexivity|]. now rewrite IH.
Qed.

Lemma replace_first_prefix (m r : string) :
  m <> "" -> replace_first m "" (m ++ r) = r.
Proof.
  intros Hm. unfold replace_first.
  assert (Hi : String.index 0 m (m ++ r) = Some 0).
  { destruct m as [|c m']; [congruence|]. simpl.
    destruct (ascii_dec c c); [|contradiction]. now rewrite prefix_app. }
  rewrite Hi, length_app.
  replace (String.length m + String.length r - (0 + String.length m))
    with (String.length r) by lia.
  rewrite Nat.add_0_l, substring_app.
  destruct (m ++ r); reflexivity.
Qed.

Lemma in_category_app (m r : string) :
  m <> "" -> in_category (Some m) (m ++ r) = true.
Proof.
  intros Hm. unfold in_category. simpl. rewrite prefix_app, andb_true_r.
  destruct (String.eqb m "") eqn:E; [apply String.eqb_eq in E; congruence | reflexivity].
Qed.

(** X9: when the source path is a category path [m] (non-empty) of the
    source server followed by a rest [r], and no earlier category in the
    order movies, tv, root matches, [buildDestPath] puts [r] without its
    leading slashes under the destination base of that category. The test is
    a plain string prefix: ["/a/movies2/x"] counts as under ["/a/movies"],
    with rest ["2/x"]. *)
Theorem buildDestPath_relative (sourcePath m r : string) (src dst : mediaPaths)
    (mt : mediaType) (Hm : m <> "") (Hs : sourcePath = m ++ r)
    (Hcat : (mt = MTmovies /\ movies src = Some m) \/
            (mt = MTtv /\ in_category (movies src) sourcePath = false /\ tv src = Some m) \/
            (mt = MTroot /\ in_category (movies src) sourcePath = false /\
             in_category (tv src) sourcePath = false /\ root src = Some m)) :
  buildDestPath sourcePath src dst
  = collapse_slashes (render (dest_base_path mt dst) ++ "/" ++ strip_leading_slashes r).
Proof.
  unfold buildDestPath, source_match. subst sourcePath.
  destruct Hcat as [[-> E]|[[-> [E1 E]]|[-> [E1 [E2 E]]]]].
  - rewrite E, (in_category_app m r Hm). simpl. now rewrite replace_first_prefix.
  - rewrite E1, E, (in_category_app m r Hm). simpl. now rewrite replace_first_prefix.
  - rewrite E1, E2, E, (in_category_app m r Hm). simpl. now rewrite replace_first_prefix.
Qed.

Lemma buildDestPath_relative_witness :
  buildDestPath "/a/movies2/x.mkv" ex_src ex_dst = "/b/Movies/2/x.mkv".
Proof.
  rewrite (buildDestPath_relative "/a/movies2/x.mkv" "/a/movies" "2/x.mkv" ex_src ex_dst MTmovies).
  - vm_compute. reflexivity.
  - discriminate.
  - reflexivity.
  - left. split; reflexivity.
Defined.

(** ** Shell quoting of the commands of [SSHManager] *)

Lemma append_empty_r (s : string) : s ++ "" = s.
Proof. induction s as [|c s IH]; simpl; [reflexivity | now rewrite IH]. Qed.

Lemma append_assoc_str (a b c : string) : (a ++ b) ++ c = a ++ (b ++ c).
Proof. induction a as [|x a IH]; simpl; [reflexivity | now rewrite IH]. Qed.

Lemma option_map_prepend (p q : string) (o : option (string * string)) :
  option_map (fun wr => (p ++ fst wr, snd wr))
    (option_map (fun wr => (q ++ fst wr, snd wr)) o)
  = option_map (fun wr => ((p ++ q) ++ fst wr, snd wr)) o.
Proof. destruct o as [[w r]|]; simpl; [now rewrite append_assoc_str | reflexivity]. Qed.

(** Inside single quotes, an escaped path reads back as the path itself. *)
Lemma sh_word_escaped (p x : string) :
  sh_word true (escape_sq p ++ x)
  = option_map (fun wr => (p ++ fst wr, snd wr)) (sh_word true x).
Proof.
  induction p as [|c p IH]; simpl.
  - destruct (sh_word true x) as [[w r]|]; reflexivity.
  - destruct (Ascii.eqb c squote) eqn:E.
    + apply Ascii.eqb_eq in E. subst c. simpl. rewrite IH.
      destruct (sh_word true x) as [[w r]|]; reflexivity.
    + simpl. rewrite E, IH. destruct (sh_word true x) as [[w r]|]; reflexivity.
Qed.

(** A word may end here: at the end of the text or at a blank. *)
Definition word_end (rest : string) : bool :=
  match rest with
  | EmptyString => true
  | String c _ => is_blank c
  end.

(** X10: the quoting that [listFiles], [getFileInfo] and [startRsyncTransfer]
    apply to a path (a single quote around it, every ['] inside written as
    ['\'']) makes the shell read back exactly that path as one word, for
    every path, including paths with quotes, blanks, [$], [;] or backslashes,
    provided the closing quote is followed by a blank or the end. *)
Theorem quoted_word_roundtrip (p rest : string) (Hend : word_end rest = true) :
  sh_word false (String squote (escape_sq p ++ String squote rest)) = Some (p, rest).
Proof.
  change (sh_word false (String squote (escape_sq p ++ String squote rest)))
    with (sh_word true (escape_sq p ++ String squote rest)).
  rewrite sh_word_escaped. simpl.
  destruct rest as [|c r]; simpl.
  - now rewrite append_empty_r.
  - simpl in Hend. rewrite Hend.
    assert (Hq : Ascii.eqb c squote = false)
      by (destruct (Ascii.eqb_spec c squote); [subst; discriminate | reflexivity]).
    assert (Hb : Ascii.eqb c bslash = false)
      by (destruct (Ascii.eqb_spec c bslash); [subst; discriminate | reflexivity]).
    rewrite Hq, Hb. simpl. now rewrite append_empty_r.
Qed.

Lemma quoted_word_roundtrip_witness :
  sh_word false (String squote (escape_sq "/m/it's $x; rm" ++ String squote " 2>&1"))
  = Some ("/m/it's $x; rm", " 2>&1").
Proof. apply quoted_word_roundtrip. reflexivity. Defined.

Fixpoint all_chars (p : ascii -> bool) (s : string) : bool :=
  match s with
  | EmptyString => true
  | String c s' => p c && all_chars p s'
  end.

Lemma ordinary_not_special (c : ascii) :
  is_ordinary c = true ->
  Ascii.eqb c squote = false /\ Ascii.eqb c bslash = false /\ is_blank c = false.
Proof.
  intros H. repeat split.
  - destruct (Ascii.eqb_spec c squote); [subst; discriminate | reflexivity].
  - destruct (Ascii.eqb_spec c bslash); [subst; discriminate | reflexivity].
  - unfold is_blank. destruct (Ascii.eqb_spec c " "%char); [subst; discriminate|].
    destruct (Ascii.eqb_spec c (ascii_of_nat 9)); [subst; discriminate | reflexivity].
Qed.

(** Outside quotes, ordinary characters are kept as they are. *)
Lemma sh_word_ordinary (u x : string) :
  all_chars is_ordinary u = true ->
  sh_word false (u ++ x) = option_map (fun wr => (u ++ fst wr, snd wr)) (sh_word false x).
Proof.
  induction u as [|c u IH]; simpl; intros H.
  - destruct (sh_word false x) as [[w r]|]; reflexivity.
  - apply andb_true_iff in H as [Hc Hu].
    destruct (ordinary_not_special c Hc) as [Hq [Hb Hbl]].
    rewrite Hq, Hb, Hbl, Hc, IH by exact Hu.
    destruct (sh_word false x) as [[w r]|]; reflexivity.
Qed.

Lemma skip_blanks_ordinary (u x : string) :
  all_chars is_ordinary u = true -> skip_blanks x = x -> skip_blanks (u ++ x) = u ++ x.
Proof.
  destruct u as [|c u]; intros H Hx; [exact Hx|]. simpl in H |- *.
  apply andb_true_iff in H as [Hc _].
  destruct (ordinary_not_special c Hc) as [_ [_ Hbl]]. now rewrite Hbl.
Qed.

Lemma sh_words_go_step (f : nat) (s w r : string) :
  skip_blanks s <> "" -> sh_word false (skip_blanks s) = Some (w, r) ->
  sh_words_go (S f) s = option_map (cons w) (sh_words_go f r).
Proof.
  intros Hne H.
  change (sh_words_go (S f) s) with
    (match skip_blanks s with
     | EmptyString => Some []
     | s1 => match sh_word false s1 with
             | Some (w, r) => option_map (cons w) (sh_words_go f r)
             | None => None
             end
     end).
  revert Hne H. generalize (skip_blanks s).
  intros [|c s'] Hne H; [congruence|]. now rewrite H.
Qed.

(** X11: for a destination whose ssh user name and host (as printed, so
    ["undefined"] when absent) are made of ordinary characters (letters,
    digits and [@:._-/+,=%]), the shell splits the command of
    [startRsyncTransfer] into exactly the intended argument vector: the
    source path and ["user@host:" ++ destPath] arrive as single arguments,
    whatever characters the two paths contain. *)
Theorem rsyncCommand_argv (sourcePath destPath : string) (destConfig : ssh_settings)
    (Hu : all_chars is_ordinary (render (ssh_username destConfig)) = true)
    (Hh : all_chars is_ordinary (render (ssh_host destConfig)) = true) :
  sh_words (rsyncCommand sourcePath destPath destConfig)
  = Some ["rsync"; "-avz"; "--info=progress2"; "--partial"; "--mkpath"; sourcePath;
          render (ssh_username destConfig) ++ "@" ++ render (ssh_host destConfig)
            ++ ":" ++ destPath].
Proof.
  set (u := render (ssh_username destConfig)) in *.
  set (h := render (ssh_host destConfig)) in *.
  assert (Hcmd0 : rsyncCommand sourcePath destPath destConfig
                  = "rsync -avz --info=progress2 --partial --mkpath '"
                    ++ (escape_sq sourcePath ++ "' " ++ u ++ "@" ++ h ++ ":'"
                        ++ escape_sq destPath ++ "'")) by reflexivity.
  rewrite Hcmd0. clearbody u h.
  set (T := "' " ++ u ++ "@" ++ h ++ ":'" ++ escape_sq destPath ++ "'").
  unfold sh_words. fold T.
  rewrite length_app. cbn [String.length Nat.add].
  rewrite (sh_words_go_step _ _ "rsync"
             (" -avz --info=progress2 --partial --mkpath '" ++ (escape_sq sourcePath ++ T)));
    [|discriminate|reflexivity].
  rewrite (sh_words_go_step _ _ "-avz"
             (" --info=progress2 --partial --mkpath '" ++ (escape_sq sourcePath ++ T)));
    [|discriminate|reflexivity].
  rewrite (sh_words_go_step _ _ "--info=progress2"
             (" --partial --mkpath '" ++ (escape_sq sourcePath ++ T)));
    [|discriminate|reflexivity].
  rewrite (sh_words_go_step _ _ "--partial"
             (" --mkpath '" ++ (escape_sq sourcePath ++ T)));
    [|discriminate|reflexivity].
  rewrite (sh_words_go_step _ _ "--mkpath" (" '" ++ (escape_sq sourcePath ++ T)));
    [|discriminate|reflexivity].
  set (T2 := u ++ "@" ++ h ++ ":'" ++ escape_sq destPath ++ "'").
  rewrite (sh_words_go_step _ _ sourcePath (" " ++ T2));
    [| discriminate |].
  2:{ change (sh_word true (escape_sq sourcePath ++ String squote (" " ++ T2))
              = Some (sourcePath, " " ++ T2)).
      apply quoted_word_roundtrip. reflexivity. }
  assert (HT2 : T2 <> "") by (unfold T2; intros E; destruct u; discriminate).
  assert (Hsk : skip_blanks (" " ++ T2) = T2)
    by (simpl; unfold T2; apply skip_blanks_ordinary; [exact Hu | reflexivity]).
  rewrite (sh_words_go_step _ _ (u ++ "@" ++ h ++ ":" ++ destPath) "");
    [| rewrite Hsk; exact HT2 |].
  2:{ rewrite Hsk. unfold T2. rewrite sh_word_ordinary by exact Hu. simpl.
      rewrite sh_word_ordinary by exact Hh. simpl.
      change (sh_word false (String squote (escape_sq destPath ++ String squote "")))
        with (sh_word true (escape_sq destPath ++ String squote "")).
      rewrite sh_word_escaped. simpl. now rewrite append_empty_r. }
  reflexivity.
Qed.

Definition demo_ssh : ssh_settings := SshSettings (Some "nas.local") (Some 2222) (Some "plex").

Lemma rsyncCommand_argv_witness :
  sh_words (rsyncCommand "/m/Bob's $(x); rm" "/t/a b" demo_ssh)
  = Some ["rsync"; "-avz"; "--info=progress2"; "--partial"; "--mkpath";
          "/m/Bob's $(x); rm"; "plex@nas.local:/t/a b"].
Proof. apply rsyncCommand_argv; reflexivity. Defined.

(** ** Numbers printed by the code and read back by [parseInt] *)

Lemma uint_chars_digits (d : Decimal.uint) :
  forall x, In x (list_ascii_of_string (DecimalString.NilEmpty.string_of_uint d)) ->
            is_digit x = true.
Proof.
  induction d; simpl; intros x H; try contradiction;
    (destruct H as [<-|H]; [reflexivity | now apply IHd]).
Qed.

Lemma to_uint_not_nil (n : nat) : Nat.to_uint n <> Decimal.Nil.
Proof.
  intros H. pose proof (DecimalNat.Unsigned.of_to n) as E.
  rewrite H in E. simpl in E. subst n. vm_compute in H. discriminate H.
Qed.

Lemma number_to_string_uint (n : nat) :
  number_to_string n = DecimalString.NilEmpty.string_of_uint (Nat.to_uint n).
Proof.
  unfold number_to_string, DecimalString.NilZero.string_of_uint.
  pose proof (to_uint_not_nil n). destruct (Nat.to_uint n); [contradiction | reflexivity ..].
Qed.

Lemma radix_digits_uint (d : Decimal.uint) :
  forall acc seen rest,
  radix_digits false (Z.of_nat acc) seen
    (list_ascii_of_string (DecimalString.NilEmpty.string_of_uint d) ++ rest)
  = radix_digits false (Z.of_nat (Nat.of_uint_acc d acc))
      (match d with Decimal.Nil => seen | _ => true end) rest.
Proof.
  induction d as [|d IH|d IH|d IH|d IH|d IH|d IH|d IH|d IH|d IH|d IH];
    intros acc seen rest; [reflexivity| ..]; simpl.
  all: match goal with
       | |- radix_digits _ ?a _ _ = radix_digits _ (Z.of_nat (Nat.of_uint_acc ?dd ?b)) _ _ =>
           replace a with (Z.of_nat b)
             by (rewrite Nat.tail_mul_spec;
                 match goal with
                 | |- context [digit_value ?c] =>
                     let v := eval vm_compute in (digit_value c) in
                     change (digit_value c) with v
                 end; lia)
       end; rewrite IH; destruct d; reflexivity.
Qed.

Lemma digit_not_space (c : ascii) : is_digit c = true -> is_space c = false.
Proof.
  unfold is_digit, is_space. intros H.
  apply andb_true_iff in H as [H1 H2]. apply Nat.leb_le in H1, H2.
  destruct (Nat.leb 9 (nat_of_ascii c)) eqn:E1; destruct (Nat.leb (nat_of_ascii c) 13) eqn:E2;
    destruct (Nat.eqb (nat_of_ascii c) 32) eqn:E3; destruct (Nat.eqb (nat_of_ascii c) 160) eqn:E4;
    simpl; try reflexivity;
    rewrite ?Nat.leb_le, ?Nat.eqb_eq in *; lia.
Qed.

Lemma digit_neq (c d : ascii) : is_digit c = true -> is_digit d = false -> Ascii.eqb c d = false.
Proof.
  intros Hc Hd. destruct (Ascii.eqb_spec c d); [subst; congruence | reflexivity].
Qed.

Lemma parseInt_digits (l : list ascii) :
  l <> [] -> (forall x, In x l -> is_digit x = true) ->
  js_parseInt (string_of_list_ascii l)
  = match radix_digits false 0 false l with Some v => Fin v | None => NaN end.
Proof.
  intros Hne Hd. unfold js_parseInt. rewrite list_ascii_of_string_of_list_ascii.
  destruct l as [|c l]; [congruence|].
  assert (Hc : is_digit c = true) by (apply Hd; left; reflexivity).
  simpl drop_spaces. rewrite (digit_not_space c Hc).
  rewrite (digit_neq c "-" Hc eq_refl), (digit_neq c "+" Hc eq_refl).
  destruct l as [|x l].
  - destruct (radix_digits false 0 false [c]) as [v|]; [now rewrite Z.mul_1_l | reflexivity].
  - assert (Hx : is_digit x = true) by (apply Hd; right; left; reflexivity).
    rewrite (digit_neq x "x" Hx eq_refl), (digit_neq x "X" Hx eq_refl), !orb_false_r,
      andb_false_r.
    destruct (radix_digits false 0 false (c :: x :: l)) as [v|]; [now rewrite Z.mul_1_l | reflexivity].
Qed.

Lemma number_to_string_chars (n : nat) :
  list_ascii_of_string (number_to_string n) <> [] /\
  forall x, In x (list_ascii_of_string (number_to_string n)) -> is_digit x = true.
Proof.
  rewrite number_to_string_uint. split; [|apply uint_chars_digits].
  pose proof (to_uint_not_nil n). destruct (Nat.to_uint n); [contradiction | discriminate ..].
Qed.

(** [parseInt(String(n))] is [n]. *)
Lemma parseInt_number_to_string (n : nat) :
  js_parseInt (number_to_string n) = Fin (Z.of_nat n).
Proof.
  destruct (number_to_string_chars n) as [Hne Hd].
  rewrite <- (string_of_list_ascii_of_string (number_to_string n)).
  rewrite (parseInt_digits _ Hne Hd).
  rewrite <- (app_nil_r (list_ascii_of_string (number_to_string n))).
  rewrite number_to_string_uint.
  change 0%Z with (Z.of_nat 0). rewrite radix_digits_uint.
  pose proof (to_uint_not_nil n) as Hn.
  replace (match Nat.to_uint n with Decimal.Nil => false | _ => true end) with true
    by (destruct (Nat.to_uint n); [contradiction | reflexivity ..]).
  simpl. change (Nat.of_uint_acc (Nat.to_uint n) 0) with (Nat.of_uint (Nat.to_uint n)).
  now rewrite DecimalNat.Unsigned.of_to.
Qed.

Lemma number_to_string_inj (n p : nat) : number_to_string n = number_to_string p -> n = p.
Proof.
  intros H. apply (f_equal js_parseInt) in H. rewrite !parseInt_number_to_string in H.
  injection H. lia.
Qed.

(** ** The SSH connection cache *)

Lemma pool_get_set_eq (k : string) (c : conn) (m : pool) : pool_get k (pool_set k c m) = Some c.
Proof.
  induction m as [|[k' v] m IH]; simpl; [now rewrite String.eqb_refl|].
  destruct (String.eqb k k') eqn:E; simpl; [now rewrite String.eqb_refl | now rewrite E].
Qed.

Lemma pool_get_delete (k j : string) (m : pool) :
  pool_get k (pool_delete j m) = if String.eqb k j then None else pool_get k m.
Proof.
  unfold pool_delete. induction m as [|[k' v] m IH]; simpl.
  - destruct (String.eqb k j); reflexivity.
  - destruct (String.eqb k' j) eqn:E; simpl.
    + apply String.eqb_eq in E. subst k'. rewrite IH.
      destruct (String.eqb k j); reflexivity.
    + rewrite IH. destruct (String.eqb k k') eqn:E2; [|reflexivity].
      apply String.eqb_eq in E2. subst k'. now rewrite E.
Qed.

Lemma pool_get_disconnect (k host : string) (port : option nat) (m : pool) :
  pool_get k (disconnect host port m)
  = if String.eqb k (host ++ ":" ++ number_to_string (match port with Some n => n | None => 22 end))
    then None else pool_get k m.
Proof.
  unfold disconnect.
  set (key := host ++ ":" ++ number_to_string (match port with Some n => n | None => 22 end)).
  destruct (pool_get key m) eqn:E.
  - apply pool_get_delete.
  - destruct (String.eqb k key) eqn:Ek; [|reflexivity].
    apply String.eqb_eq in Ek. now subst k.
Qed.

Lemma list_ascii_app (a b : string) :
  list_ascii_of_string (a ++ b) = (list_ascii_of_string a ++ list_ascii_of_string b)%list.
Proof. induction a as [|c a IH]; simpl; [reflexivity | now rewrite IH]. Qed.

Lemma last_char_app (a b : string) :
  list_ascii_of_string b <> [] ->
  hd_error (rev (list_ascii_of_string (a ++ b))) = hd_error (rev (list_ascii_of_string b)).
Proof.
  intros Hb. rewrite list_ascii_app, rev_app_distr.
  destruct (rev (list_ascii_of_string b)) eqn:E; [|reflexivity].
  apply (f_equal (@rev ascii)) in E. rewrite rev_involutive in E. contradiction.
Qed.

Lemma append_cancel_l (a b c : string) : a ++ b = a ++ c -> b = c.
Proof. induction a as [|x a IH]; simpl; [easy | intros H; injection H; exact IH]. Qed.

(** X12: a connection opened for a server configured without [ssh.port] is
    cached under the key ["host:undefined"], and no call of
    [disconnect(host, port)] removes it, whatever its arguments. With
    [ssh.port = n], [disconnect] on the same host removes it exactly when the
    port passed (22 when omitted) is [n]. *)
Theorem disconnect_after_ready (cfg : ssh_settings) (c : conn) (m : pool) (port : option nat) :
  (ssh_port cfg = None ->
     forall host, pool_get (connectionKey cfg) (disconnect host port (on_ready cfg c m)) = Some c) /\
  (forall n, ssh_port cfg = Some n ->
     pool_get (connectionKey cfg) (disconnect (render (ssh_host cfg)) port (on_ready cfg c m))
     = if Nat.eqb n (match port with Some p => p | None => 22 end) then None else Some c).
Proof.
  set (p := match port with Some p => p | None => 22 end).
  split.
  - intros Hp host. rewrite pool_get_disconnect. fold p. unfold on_ready.
    rewrite pool_get_set_eq.
    destruct (String.eqb _ _) eqn:E; [|reflexivity].
    apply String.eqb_eq in E. exfalso.
    unfold connectionKey in E. rewrite Hp in E. simpl port_string in E.
    destruct (number_to_string_chars p) as [Hne Hd].
    assert (Hne2 : list_ascii_of_string (":" ++ number_to_string p) <> [])
      by discriminate.
    apply (f_equal (fun s => hd_error (rev (list_ascii_of_string s)))) in E.
    rewrite <- (append_assoc_str host ":" (number_to_string p)) in E.
    rewrite (last_char_app (render (ssh_host cfg)) (":" ++ "undefined")) in E by discriminate.
    rewrite (last_char_app (host ++ ":") (number_to_string p)) in E by exact Hne.
    simpl in E.
    destruct (rev (list_ascii_of_string (number_to_string p))) as [|z l] eqn:Er;
      [apply (f_equal (@rev ascii)) in Er; rewrite rev_involutive in Er; contradiction|].
    simpl in E. injection E as Ez.
    assert (Hz : In z (list_ascii_of_string (number_to_string p)))
      by (apply in_rev; rewrite Er; left; reflexivity).
    specialize (Hd z Hz). rewrite <- Ez in Hd. discriminate Hd.
  - intros n Hn. rewrite pool_get_disconnect. fold p. unfold on_ready.
    rewrite pool_get_set_eq. unfold connectionKey. rewrite Hn. simpl port_string.
    destruct (Nat.eqb n p) eqn:E.
    + apply Nat.eqb_eq in E. subst n. now rewrite String.eqb_refl.
    + destruct (String.eqb _ _) eqn:Es; [|reflexivity].
      apply String.eqb_eq, append_cancel_l in Es. injection Es as Es.
      apply number_to_string_inj in Es. apply Nat.eqb_neq in E. contradiction.
Qed.

(** X13: [connect] reuses a connection that became ready for the same
    [host:port] key and is not destroyed, without touching the cache; a
    destroyed one is dropped from the cache and a new client dials; after
    the connection's [close] (or [error]) event the next [connect] dials
    again. *)
Theorem connect_cache (cfg : ssh_settings) (c : conn) (m : pool) (fresh : nat) :
  (destroyed c = false ->
     connect cfg fresh (on_ready cfg c m) = (Reused c, on_ready cfg c m)) /\
  (destroyed c = true ->
     connect cfg fresh (on_ready cfg c m)
     = (Dialing (Conn fresh false), pool_delete (connectionKey cfg) (on_ready cfg c m))) /\
  connect cfg fresh (on_close cfg m) = (Dialing (Conn fresh false), on_close cfg m).
Proof.
  unfold connect, on_ready, on_close. rewrite pool_get_set_eq, pool_get_delete, String.eqb_refl.
  repeat split; intros H; now rewrite H.
Qed.

Lemma delete_transfer_route_witness :
  delete_transfer [srvA1; srvA2] 7 5 demo_state = (404, demo_state) /\
  delete_transfer [srvA2] 0 5 demo_state = (404, demo_state) /\
  fst (delete_transfer [srvA1; srvA2] 0 5 demo_state) = 200.
Proof.
  assert (Hn : getTransfer 7 demo_state = None) by (vm_compute; reflexivity).
  destruct (getTransfer 0 demo_state) as [t|] eqn:Ht; [|vm_compute in Ht; discriminate].
  assert (Ht' := Ht). vm_compute in Ht'. injection Ht' as Ht'.
  split; [exact (proj1 (delete_transfer_route [srvA1; srvA2] 7 5 demo_state) Hn)|].
  split.
  - apply (proj1 (proj2 (delete_transfer_route [srvA2] 0 5 demo_state) t Ht)).
    rewrite <- Ht'. reflexivity.
  - apply (proj2 (proj2 (proj2 (delete_transfer_route [srvA1; srvA2] 0 5 demo_state) t Ht)
                   ltac:(rewrite <- Ht'; discriminate))).
    right. rewrite <- Ht'. reflexivity.
Defined.

Definition demo_ssh_noport : ssh_settings := SshSettings (Some "nas.local") None (Some "plex").

Lemma disconnect_after_ready_witness :
  pool_get (connectionKey demo_ssh_noport)
    (disconnect "nas.local" None (on_ready demo_ssh_noport (Conn 1 false) []))
  = Some (Conn 1 false) /\
  pool_get (connectionKey demo_ssh)
    (disconnect "nas.local" (Some 2222) (on_ready demo_ssh (Conn 1 false) [])) = None.
Proof.
  split.
  - exact (proj1 (disconnect_after_ready demo_ssh_noport (Conn 1 false) [] None)
             eq_refl "nas.local").
  - exact (proj2 (disconnect_after_ready demo_ssh (Conn 1 false) [] (Some 2222)) 2222 eq_refl).
Defined.

Lemma connect_cache_witness :
  connect demo_ssh 2 (on_ready demo_ssh (Conn 1 false) [])
  = (Reused (Conn 1 false), on_ready demo_ssh (Conn 1 false) []).
Proof. exact (proj1 (connect_cache demo_ssh (Conn 1 false) [] 2) eq_refl). Defined.

(** ** The path checks of the files router *)

Lemma prefix_spec (a p : string) : String.prefix a p = true <-> exists r, p = a ++ r.
Proof.
  revert p. induction a as [|c a IH]; intros p.
  - split; [intros _; now exists p | intros _; now destruct p].
  - destruct p as [|d p]; simpl.
    + split; [discriminate | intros [r Hr]; discriminate].
    + destruct (ascii_dec c d) as [->|Hcd].
      * rewrite IH. split; intros [r Hr]; exists r; [now rewrite Hr | now injection Hr].
      * split; [discriminate | intros [r Hr]; injection Hr; intros; congruence].
Qed.

Lemma prefix_refl (a : string) : String.prefix a a = true.
Proof. apply prefix_spec. exists "". symmetry. apply append_empty_r. Qed.

Lemma some_prefix_true (l : list jsstr) (path : jsstr) :
  some_prefix l path = Some true ->
  exists a x, path = Some x /\ In a l /\ String.prefix (render a) x = true.
Proof.
  induction l as [|a l IH]; simpl; [discriminate|].
  destruct path as [x|]; [|discriminate].
  destruct (String.prefix (render a) x) eqn:E.
  - intros _. exists a, x. auto.
  - intros H. destruct (IH H) as [b [y [Hy [Hb Hp]]]]. exists b, y. auto.
Qed.

Lemma some_prefix_some (l : list jsstr) (p : string) :
  some_prefix l (Some p) = Some (existsb (fun a => String.prefix (render a) p) l).
Proof.
  induction l as [|a l IH]; simpl; [reflexivity|].
  destruct (String.prefix (render a) p); [reflexivity | exact IH].
Qed.

Lemma allowed_nonempty (mp : mediaPaths) (a : jsstr) :
  In a (allowedPaths mp) -> render a <> "".
Proof.
  unfold allowedPaths. rewrite filter_In. intros [_ Ht].
  destruct a as [s|]; [|discriminate]. simpl in Ht |- *.
  intros ->. discriminate Ht.
Qed.

(** X14: [GET /api/files/:serverId/info] answers 400 without a truthy
    [path]; for a configured server it goes on to [getFileInfo] for the path
    [p] exactly when [p] starts with one of the server's truthy media paths
    (root, movies, tv). The check is a plain string prefix test: a path like
    ["/a/movies/../../etc/passwd"] passes it. *)
Theorem files_info_route_prefix (servers : list server) (sid : string) (sv : server)
    (Hs : find_server sid servers = Some sv) :
  (forall qpath, truthy qpath = false -> files_info_route servers sid qpath = FilesAnswer 400) /\
  (forall p, files_info_route servers sid (Some p) = GetFileInfo sv p <->
             exists a r, In a (allowedPaths (server_mediaPaths sv)) /\ p = render a ++ r).
Proof.
  unfold files_info_route. rewrite Hs. split.
  - intros qpath Hq. now rewrite Hq.
  - intros p. destruct (truthy (Some p)) eqn:Hp; simpl.
    + rewrite some_prefix_some.
      destruct (existsb _ _) eqn:E; simpl.
      * split; [intros _|reflexivity].
        apply existsb_exists in E as [a [Ha Hpre]].
        apply prefix_spec in Hpre as [r Hr]. now exists a, r.
      * split; [discriminate|]. intros [a [r [Ha Hr]]].
        assert (Hin : existsb (fun a => String.prefix (render a) p)
                        (allowedPaths (server_mediaPaths sv)) = true).
        { apply existsb_exists. exists a. split; [exact Ha|].
          apply prefix_spec. now exists r. }
        congruence.
    + split; [discriminate|]. intros [a [r [Ha Hr]]].
      apply allowed_nonempty in Ha. simpl in Hp.
      destruct (String.eqb p "") eqn:E; [|discriminate].
      apply String.eqb_eq in E. subst p.
      destruct (render a); [congruence | discriminate].
Qed.

Lemma files_info_route_prefix_witness :
  files_info_route [srvA1] "a1" (Some "/a/movies/../../etc/passwd")
  = GetFileInfo srvA1 "/a/movies/../../etc/passwd".
Proof.
  apply (proj2 (files_info_route_prefix [srvA1] "a1" srvA1 eq_refl)).
  exists (Some "/a/movies"), "/../../etc/passwd". split; [right; left; reflexivity | reflexivity].
Defined.

(** X15: [GET /api/files/:serverId] without a truthy [path] lists the first
    truthy media path of the server in the order root, movies, tv, and
    answers 403 when the server has none; whatever the query, it reaches
    [listFiles] only for a path that starts with one of the server's truthy
    media paths. *)
Theorem files_list_route_guard (servers : list server) (sid : string) (sv : server)
    (Hs : find_server sid servers = Some sv) :
  (forall qpath, truthy qpath = false ->
     files_list_route servers sid qpath =
       match allowedPaths (server_mediaPaths sv) with
       | a :: _ => ListFiles sv (render a)
       | [] => FilesAnswer 403
       end) /\
  (forall qpath p, files_list_route servers sid qpath = ListFiles sv p ->
     exists a r, In a (allowedPaths (server_mediaPaths sv)) /\ p = render a ++ r).
Proof.
  unfold files_list_route. rewrite Hs. split.
  - intros qpath Hq. unfold js_or. rewrite Hq.
    unfold allowedPaths.
    destruct (root (server_mediaPaths sv)) as [r|];
      destruct (movies (server_mediaPaths sv)) as [m|];
      destruct (tv (server_mediaPaths sv)) as [t|];
      repeat (simpl; match goal with
                     | H : String.eqb ?x "" = _ |- context [String.eqb ?x ""] => rewrite H
                     | |- context [String.eqb ?x ""] => destruct (String.eqb x "") eqn:?
                     end);
      simpl; rewrite ?prefix_refl; reflexivity.
  - intros qpath p H.
    destruct (some_prefix _ _) as [[|]|] eqn:E; simpl in H; try discriminate.
    injection H as Hp. apply some_prefix_true in E as [a [x [Hx [Ha Hpre]]]].
    rewrite Hx in Hp. simpl in Hp. subst p.
    apply prefix_spec in Hpre as [r Hr]. now exists a, r.
Qed.

Lemma files_list_route_guard_witness :
  files_list_route [srvA1] "a1" None = ListFiles srvA1 "/a".
Proof.
  exact (proj1 (files_list_route_guard [srvA1] "a1" srvA1 eq_refl) None eq_refl).
Defined.

(** ** [executeCommand] and [getFileInfo] *)








